(** * lib/tracing: the span-lifecycle wrapper [withSpan] and its helpers

    A shallow embedding of [lib/tracing.ts] and what it guarantees.

    - JavaScript values are an inductive type; objects carry an address, so
      that equality in the model is identity in the program, and what the
      one property the code reads of them, [message], comes to: a value, or
      a value thrown by the read.  Numbers are integers: the code only tests
      them against [undefined].
    - The tracing provider ([@opentelemetry/api]) is the chronological log
      of the calls made on it; its methods return and do not throw.
    - Native promises are a heap of promise states with their reactions, and
      a FIFO queue of microtasks.  The callbacks that get attached are data
      ([handler]): the two closures of [withSpan], the default pass-through,
      and the resolving functions the engine makes when one promise follows
      another.  The [then] method of a foreign thenable is code of the
      environment.
    - Code is a function from the world to a completion (a value returned
      or a value thrown) and a world.
    - The platform's URL parser is a parameter of [api.call].

    The first part holds the definitions, the second the properties: the
    paths through [withSpan], the helpers, and the chain of callbacks of one
    invocation followed through any interleaving with other activity. *)

From stdpp Require Import base option list strings gmap.
From Stdlib Require Import ZArith Lia Ascii.

Local Open Scope string_scope.
Local Open Scope list_scope.

(** ** JavaScript values *)

(** The values that flow through the wrapper: results of operations, thrown
    and rejected values, attribute values.  Objects carry their address, so
    that equality of two values of the model is identity in the program.

    The wrapper reads one property of a value, the [message] of what was
    thrown or rejected, so an object carries what that read comes to: the
    value found under [message], own or inherited ([undefined] when there is
    none), or, for an accessor property or a proxy whose read throws, the
    value thrown.  A thenable and a native promise may have a [message] too;
    the model keeps none for them. *)
Inductive value : Type :=
  | VUndefined
  | VNull
  | VBool (b : bool)
  | VNum (n : Z)
  | VStr (s : string)
  | VError (addr : nat) (message : string)  (* an [Error] instance *)
  | VTypeError (message : string)           (* a [TypeError] raised by the engine *)
  | VObject (addr : nat) (message : value)  (* any other object, and what its [message] reads as *)
  | VGuarded (addr : nat) (thrown : value)  (* an object whose [message] throws when read *)
  | VThenable (addr : nat)                  (* has a [then] method, not a [Promise] *)
  | VPromise (p : nat).                     (* a native promise, by heap index *)

#[global] Instance value_eq_dec : EqDecision value.
Proof. solve_decision. Defined.

(** [ToBoolean]. *)
Definition truthy (v : value) : bool :=
  match v with
  | VUndefined | VNull => false
  | VBool b => b
  | VNum n => negb (n =? 0)%Z
  | VStr s => negb (String.eqb s "")
  | _ => true
  end.

(** [x instanceof Promise]. *)
Definition instanceof_Promise (v : value) : bool :=
  match v with VPromise _ => true | _ => false end.

(** An optional parameter that was not supplied reads as [undefined]. *)
Definition of_optional_string (o : option string) : value :=
  match o with Some s => VStr s | None => VUndefined end.

(** [Record<string, string | number | boolean>]: an object used as a map. *)
Abbreviation attributes := (gmap string value).

(** [{ ...acc, ...src }]: the keys of the later spread win. *)
Definition spread (acc src : attributes) : attributes := src ∪ acc.

(** ** Completions and the world *)

Inductive completion (A : Type) : Type :=
  | Normal (a : A)
  | Throw (e : value).
Arguments Normal {A} a.
Arguments Throw {A} e.

Inductive status_code : Type := OK | ERROR.

#[global] Instance status_code_eq_dec : EqDecision status_code.
Proof. solve_decision. Defined.

(** The calls made on the provider. *)
Inductive event : Type :=
  | EStart (span : nat) (name : string)
  | ESetAttributes (span : nat) (attrs : attributes)
  | ESetStatus (span : nat) (code : status_code) (message : option value)
  | ERecordException (span : nat) (exception : value)
  | EEnd (span : nat).

(** The callbacks that are ever attached to a promise, as data. *)
Inductive handler : Type :=
  | HDefault                (* no callback given: pass the value or the reason on *)
  | HSpanOk (span : nat)    (* the [.then] callback of [withSpan], closed over [span] *)
  | HSpanErr (span : nat)   (* the [.catch] callback of [withSpan], closed over [span] *)
  | HResolve (target : nat) (* the resolve function of promise [target] *)
  | HReject (target : nat). (* the reject function of promise [target] *)

Record reaction : Type := Reaction {
  on_fulfilled : handler;
  on_rejected : handler;
  derived : nat;
}.

Inductive pstate : Type :=
  | Pending (reactions : list reaction)
  | Fulfilled (v : value)
  | Rejected (reason : value).

Inductive job : Type :=
  | JReact (h : handler) (rejected : bool) (arg : value) (target : nat)
  | JAdopt (source target : nat).

Record World : Type := mkWorld {
  log : list event;      (* provider calls, oldest first *)
  next_span : nat;       (* spans handed out so far *)
  heap : list pstate;    (* the native promises *)
  queue : list job;      (* the microtask queue, next job first *)
}.

Definition set_log (f : list event → list event) (w : World) : World :=
  mkWorld (f (log w)) (next_span w) (heap w) (queue w).
Definition set_heap (f : list pstate → list pstate) (w : World) : World :=
  mkWorld (log w) (next_span w) (f (heap w)) (queue w).
Definition set_queue (f : list job → list job) (w : World) : World :=
  mkWorld (log w) (next_span w) (heap w) (f (queue w)).

Definition empty_world : World := mkWorld [] 0 [] [].

(** Code that runs against the world and returns or throws. *)
Definition M (A : Type) : Type := World → completion A * World.

Definition ret {A} (a : A) : M A := λ w, (Normal a, w).
Definition throw {A} (e : value) : M A := λ w, (Throw e, w).
Definition bind {A B} (c : M A) (k : A → M B) : M B :=
  λ w, match c w with
       | (Normal a, w') => k a w'
       | (Throw e, w') => (Throw e, w')
       end.
(** [try { body } catch (error) { handle }]. *)
Definition try_catch {A} (body : M A) (handle : value → M A) : M A :=
  λ w, match body w with
       | (Normal a, w') => (Normal a, w')
       | (Throw e, w') => handle e w'
       end.

Notation "x <- c ;; k" := (bind c (λ x, k))
  (at level 100, c at next level, right associativity).
Notation "c ;; k" := (bind c (λ _, k))
  (at level 100, right associativity).

(** ** The provider: [tracer] and [span] *)

Definition emit (ev : event) : M unit :=
  λ w, (Normal tt, set_log (λ l, l ++ [ev]) w).

Definition span_setAttributes (span : nat) (attrs : attributes) : M unit :=
  emit (ESetAttributes span attrs).
Definition span_setStatus (span : nat) (code : status_code) (message : option value) : M unit :=
  emit (ESetStatus span code message).
Definition span_recordException (span : nat) (exception : value) : M unit :=
  emit (ERecordException span exception).
Definition span_end (span : nat) : M unit :=
  emit (EEnd span).

(** [tracer.startSpan(name)]: a fresh span. *)
Definition tracer_startSpan (name : string) : M nat :=
  λ w, (Normal (next_span w),
        mkWorld (log w ++ [EStart (next_span w) name]) (S (next_span w)) (heap w) (queue w)).

(** [tracer.startActiveSpan(name, fn)]: starts a span and returns what [fn]
    returns or throws when called with it.  The ambient context that makes the
    span the parent of the spans started inside [fn] is the provider's own. *)
Definition tracer_startActiveSpan {A} (name : string) (fn : nat → M A) : M A :=
  span <- tracer_startSpan name ;; fn span.

(** [error.message]: reading a property of [undefined] or [null] throws; an
    object gives the value found under [message], or throws what its accessor
    or proxy throws; a boolean, a number or a string is looked up on its
    wrapper's prototype, where there is no [message].  Of a thenable and of a
    native promise the model keeps no [message] and the read gives
    [undefined]; what is stated below about the [message] of a thrown or
    rejected value leaves these two out. *)
Definition get_message (error : value) : M value :=
  match error with
  | VUndefined =>
      throw (VTypeError "Cannot read properties of undefined (reading 'message')")
  | VNull =>
      throw (VTypeError "Cannot read properties of null (reading 'message')")
  | VError _ m | VTypeError m => ret (VStr m)
  | VObject _ m => ret m
  | VGuarded _ t => throw t
  | VBool _ | VNum _ | VStr _ => ret VUndefined
  | VThenable _ | VPromise _ => ret VUndefined
  end.

(** ** Native promises *)

Definition reaction_job (rejected : bool) (arg : value) (r : reaction) : job :=
  JReact (if rejected then on_rejected r else on_fulfilled r) rejected arg (derived r).

(** Settling a pending promise queues one job per reaction, in the order the
    reactions were attached; a settled promise stays as it is. *)
Definition settle_promise (rejected : bool) (p : nat) (arg : value) (w : World) : World :=
  match heap w !! p with
  | Some (Pending rs) =>
      mkWorld (log w) (next_span w)
              (<[p := if rejected then Rejected arg else Fulfilled arg]> (heap w))
              (queue w ++ map (reaction_job rejected arg) rs)
  | _ => w
  end.

Definition fulfill_promise : nat → value → World → World := settle_promise false.
Definition reject_promise : nat → value → World → World := settle_promise true.

(** The resolve function of promise [p]: a promise resolved with a native
    promise follows it, from a job of its own; one resolved with itself is
    rejected; one resolved with a foreign thenable is left to the thenable's
    [then] method, which is code of the environment. *)
Definition resolve_promise (p : nat) (v : value) (w : World) : World :=
  match v with
  | VPromise x =>
      if decide (x = p)
      then reject_promise p (VTypeError "Chaining cycle detected for promise") w
      else set_queue (λ q, q ++ [JAdopt x p]) w
  | VThenable _ => w
  | _ => fulfill_promise p v w
  end.

(** [new Promise(...)] that stays pending: returns its index. *)
Definition new_promise : M nat :=
  λ w, (Normal (length (heap w)), set_heap (λ h, h ++ [Pending []]) w).

(** [p.then(onFulfilled, onRejected)]: the derived promise is created, and the
    reaction is attached to a pending [p], or queued at once for a settled one. *)
Definition promise_then (p : nat) (onFulfilled onRejected : handler) : M nat :=
  λ w,
    let q := length (heap w) in
    let r := Reaction onFulfilled onRejected q in
    let w' := set_heap (λ h, h ++ [Pending []]) w in
    (Normal q,
     match heap w !! p with
     | Some (Pending rs) => set_heap (λ h, <[p := Pending (rs ++ [r])]> h) w'
     | Some (Fulfilled v) => set_queue (λ js, js ++ [reaction_job false v r]) w'
     | Some (Rejected e) => set_queue (λ js, js ++ [reaction_job true e r]) w'
     | None => w'
     end).

(** [p.catch(onRejected)] is [p.then(undefined, onRejected)]. *)
Definition promise_catch (p : nat) (onRejected : handler) : M nat :=
  promise_then p HDefault onRejected.

(** ** The span runner, [withSpan] *)

(** The callback given to [.then] (lines 21-25). *)
Definition withSpan_onFulfilled (span : nat) (v : value) : M value :=
  span_setStatus span OK None ;;
  span_end span ;;
  ret v.

(** The callback given to [.catch] (lines 26-34). *)
Definition withSpan_onRejected (span : nat) (error : value) : M value :=
  message <- get_message error ;;
  span_setStatus span ERROR (Some message) ;;
  span_recordException span error ;;
  span_end span ;;
  throw error.

Definition withSpan (name : string) (fn : M value) (attrs : option attributes) : M value :=
  tracer_startActiveSpan name (λ span,
    match attrs with
    | Some a => span_setAttributes span a
    | None => ret tt
    end ;;
    try_catch
      (result <- fn ;;
       match result with
       | VPromise p =>
           q <- promise_then p (HSpanOk span) HDefault ;;
           q' <- promise_catch q (HSpanErr span) ;;
           ret (VPromise q')
       | _ =>
           span_setStatus span OK None ;;
           span_end span ;;
           ret result
       end)
      (λ error,
         message <- get_message error ;;
         span_setStatus span ERROR (Some message) ;;
         span_recordException span error ;;
         span_end span ;;
         throw error)).

(** ** The microtask queue *)

Definition run_handler (h : handler) (rejected : bool) (arg : value) : M value :=
  match h with
  | HDefault => if rejected then throw arg else ret arg
  | HSpanOk span => withSpan_onFulfilled span arg
  | HSpanErr span => withSpan_onRejected span arg
  | HResolve t => λ w, (Normal VUndefined, resolve_promise t arg w)
  | HReject t => λ w, (Normal VUndefined, reject_promise t arg w)
  end.

(** One job: a reaction runs its callback and resolves the derived promise
    with what it returns, or rejects it with what it throws; an adoption job
    calls [then] on the followed promise with the follower's two functions. *)
Definition run_job (j : job) (w : World) : World :=
  match j with
  | JReact h rejected arg target =>
      match run_handler h rejected arg w with
      | (Normal v, w') => resolve_promise target v w'
      | (Throw e, w') => reject_promise target e w'
      end
  | JAdopt x t => snd (promise_then x (HResolve t) (HReject t) w)
  end.

Definition run_next_job (w : World) : World :=
  match queue w with
  | [] => w
  | j :: js => run_job j (set_queue (λ _, js) w)
  end.

Fixpoint run_jobs (n : nat) (w : World) : World :=
  match n with
  | 0 => w
  | S n' => run_jobs n' (run_next_job w)
  end.

(** ** What the log says about a span *)

Definition is_end_of (span : nat) (ev : event) : bool :=
  match ev with EEnd s => bool_decide (s = span) | _ => false end.

(** How many times [span.end()] was called. *)
Definition end_count (span : nat) (l : list event) : nat :=
  length (filter (λ ev, is_end_of span ev = true) l).

(** The status last set on the span. *)
Fixpoint span_status (span : nat) (l : list event) : option (status_code * option value) :=
  match l with
  | [] => None
  | ev :: l' =>
      match span_status span l' with
      | Some st => Some st
      | None =>
          match ev with
          | ESetStatus s c m => if decide (s = span) then Some (c, m) else None
          | _ => None
          end
      end
  end.

(** The exceptions recorded on the span, oldest first. *)
Fixpoint span_exceptions (span : nat) (l : list event) : list value :=
  match l with
  | [] => []
  | ERecordException s e :: l' =>
      if decide (s = span) then e :: span_exceptions span l' else span_exceptions span l'
  | _ :: l' => span_exceptions span l'
  end.

(** The name the span was started under. *)
Fixpoint span_name (span : nat) (l : list event) : option string :=
  match l with
  | [] => None
  | EStart s n :: l' => if decide (s = span) then Some n else span_name span l'
  | _ :: l' => span_name span l'
  end.

(** The attributes set on the span, if [setAttributes] was called. *)
Fixpoint span_attributes (span : nat) (l : list event) : option attributes :=
  match l with
  | [] => None
  | ESetAttributes s a :: l' => if decide (s = span) then Some a else span_attributes span l'
  | _ :: l' => span_attributes span l'
  end.

(** ** Naming and attribute helpers *)

(** A callable: its [name] property and what calling it does. *)
Record callable : Type := Callable {
  fn_name : string;
  fn_call : list value → M value;
}.

(** The [options] argument of [autoTrace]. *)
Record trace_options : Type := TraceOptions {
  prefix : option string;
  opt_attributes : option attributes;
}.

(** [fn.name || 'anonymous']. *)
Definition name_or_anonymous (name : string) : string :=
  if truthy (VStr name) then name else "anonymous".

(** The [spanName] computed by the wrapper that [autoTrace] returns. *)
Definition autoTrace_spanName (name : string) (options : option trace_options) : string :=
  match options ≫= prefix with
  | Some p =>
      if truthy (VStr p)
      then p +:+ "." +:+ name_or_anonymous name
      else name_or_anonymous name
  | None => name_or_anonymous name
  end.

(** [autoTrace(fn, options)] is the wrapper; it is given here applied to its
    arguments. *)
Definition autoTrace (fn : callable) (options : option trace_options)
    (args : list value) : M value :=
  let spanName := autoTrace_spanName (fn_name fn) options in
  withSpan spanName (fn_call fn args) (options ≫= opt_attributes).

(** The attribute object built by [db.query]. *)
Definition db_query_attributes (statement : option string) : attributes :=
  if truthy (of_optional_string statement)
  then {[ "db.system" := VStr "postgresql";
          "db.statement" := of_optional_string statement ]}
  else {[ "db.system" := VStr "postgresql" ]}.

Definition db_query (operation : M value) (statement : option string) : M value :=
  withSpan "db.query" operation (Some (db_query_attributes statement)).

(** The attribute object built by [component.process]: two conditional
    spreads into an empty object. *)
Definition component_process_attributes (type : option string)
    (recordCount : option Z) : attributes :=
  let o1 :=
    spread ∅ (if truthy (of_optional_string type)
              then {[ "processing.type" := of_optional_string type ]}
              else ∅) in
  spread o1 (match recordCount with
             | Some n => {[ "processing.record_count" := VNum n ]}
             | None => ∅
             end).

Definition component_load (name : string) (operation : M value)
    (attrs : option attributes) : M value :=
  withSpan (name +:+ ".load") operation attrs.

Definition component_fetch (name : string) (operation : M value)
    (attrs : option attributes) : M value :=
  withSpan (name +:+ ".fetch") operation attrs.

Definition component_process (operation : M value) (type : option string)
    (recordCount : option Z) : M value :=
  withSpan "data.processing" operation
           (Some (component_process_attributes type recordCount)).

Section Api.

(** The platform's URL parser: the [hostname] of [new URL(url)], or [None]
    where the constructor throws because [url] does not parse. *)
Variable URL_hostname : string → option string.

(** [new URL(url).hostname]. *)
Definition new_URL_hostname (url : string) : M string :=
  match URL_hostname url with
  | Some host => ret host
  | None => throw (VTypeError "Invalid URL")
  end.

(** The attribute object built by [api.call] from a parsed host. *)
Definition api_call_attributes (method url host : string) : attributes :=
  {[ "http.method" := VStr method;
     "http.url" := VStr url;
     "net.peer.name" := VStr host ]}.

(** [api.call]: the argument object, and with it [new URL(url)], is
    evaluated before [withSpan] is called. *)
Definition api_call (operation : M value) (url : string)
    (method : option string) : M value :=
  let method := default "GET" method in
  host <- new_URL_hostname url ;;
  withSpan "external.api.call" operation (Some (api_call_attributes method url host)).

End Api.

(** A parser to run [api.call] with: it accepts [https://host/path] and takes
    the host up to the first slash. *)
Fixpoint up_to_slash (s : string) : string :=
  match s with
  | EmptyString => EmptyString
  | String c s' => if Ascii.eqb c "/"%char then EmptyString else String c (up_to_slash s')
  end.

Definition https_hostname (url : string) : option string :=
  if String.prefix "https://" url
  then match up_to_slash (String.substring 8 (String.length url - 8) url) with
       | EmptyString => None
       | host => Some host
       end
  else None.

(** The world in which [withSpan] calls the operation: the span is started
    and, when attributes are given, they are set. *)
Definition span_opened (name : string) (attrs : option attributes) (w : World) : World :=
  mkWorld (log w ++ EStart (next_span w) name ::
             match attrs with
             | Some a => [ESetAttributes (next_span w) a]
             | None => []
             end)
          (S (next_span w)) (heap w) (queue w).

(** What the synchronous success path appends to the log. *)
Definition ended_ok (span : nat) : list event :=
  [ESetStatus span OK None; EEnd span].

(** What the two failure paths append to the log. *)
Definition ended_error (span : nat) (message error : value) : list event :=
  [ESetStatus span ERROR (Some message); ERecordException span error; EEnd span].

(** ** Operations and states used in the statements *)

(** A string, a number or a boolean. *)
Definition is_scalar (v : value) : Prop :=
  match v with VStr _ | VNum _ | VBool _ => True | _ => False end.

(** An operation that returns a new promise, still pending. *)
Definition pending_operation : M value :=
  p <- new_promise ;; ret (VPromise p).

(** An operation that returns [Promise.reject(reason)]. *)
Definition rejected_operation (reason : value) : M value :=
  p <- new_promise ;;
  (λ w, (Normal (VPromise p), reject_promise p reason w)).

(** A thrown or rejected value of which [error.message] can be read, and of
    which the model says what it reads as: a boolean, a number, a string, an
    [Error], or an object whose [message] does not throw.  Not [undefined] or
    [null], not an object whose [message] throws, and not a thenable or a
    native promise, whose [message] the model does not keep. *)
Definition readable (e : value) : Prop :=
  match e with
  | VUndefined | VNull | VGuarded _ _ | VThenable _ | VPromise _ => False
  | _ => True
  end.

#[global] Instance readable_dec e : Decision (readable e).
Proof. destruct e; apply _. Defined.

(** Reading [error.message] throws: [e] is [undefined], [null], or an object
    whose [message] throws. *)
Definition unreadable (e : value) : Prop :=
  match e with
  | VUndefined | VNull | VGuarded _ _ => True
  | _ => False
  end.

#[global] Instance unreadable_dec e : Decision (unreadable e).
Proof. destruct e; apply _. Defined.

(** What [error.message] evaluates to on a value it can be read from. *)
Definition message_of (e : value) : value :=
  match e with
  | VError _ m | VTypeError m => VStr m
  | VObject _ m => m
  | _ => VUndefined
  end.

(** Neither a native promise nor a thenable: what a promise is fulfilled with. *)
Definition plain (v : value) : Prop :=
  match v with VPromise _ | VThenable _ => False | _ => True end.

(** The heap that [withSpan] leaves when the operation returns the pending
    promise [p]: the [.then] callback waits on [p], the [.catch] callback on
    the promise derived from it, and the promise returned to the caller is
    pending. *)
Definition attached (span p : nat) (rs : list reaction) (h : list pstate) : list pstate :=
  let q := length h in
  <[q := Pending [Reaction HDefault (HSpanErr span) (S q)]]>
    (<[p := Pending (rs ++ [Reaction (HSpanOk span) HDefault q])]> (h ++ [Pending []])
     ++ [Pending []]).

(** ** The chain of one invocation, among other activity *)

Definition event_span (ev : event) : nat :=
  match ev with
  | EStart s _ | ESetAttributes s _ | ESetStatus s _ _ | ERecordException s _ | EEnd s => s
  end.

(** The provider calls that concern one span. *)
Definition span_events (span : nat) (l : list event) : list event :=
  filter (λ ev, event_span ev = span) l.

(** What the [.catch] callback throws for the reason [e]: [e] itself, or the
    [TypeError] of reading [e.message]. *)
Definition passed_on (e : value) : value :=
  match e with
  | VUndefined => VTypeError "Cannot read properties of undefined (reading 'message')"
  | VNull => VTypeError "Cannot read properties of null (reading 'message')"
  | VGuarded _ t => t
  | _ => e
  end.

Definition settled (rejected : bool) (arg : value) : pstate :=
  if rejected then Rejected arg else Fulfilled arg.

(** How the promise returned by [withSpan] settles when the promise of the
    operation settles as [settled rejected arg]. *)
Definition outcome (rejected : bool) (arg : value) : pstate :=
  if rejected then Rejected (passed_on arg) else Fulfilled arg.

(** What the [.catch] callback says to the provider for the reason [e]. *)
Definition rejection_events (span : nat) (e : value) : list event :=
  match e with
  | VUndefined | VNull | VGuarded _ _ => []
  | _ => ended_error span (message_of e) e
  end.

(** One step of the rest of the program: the next microtask, or a call on
    the promise and provider interfaces. *)
Inductive action : Type :=
  | ARunJob
  | AResolve (x : nat) (v : value)
  | AReject (x : nat) (e : value)
  | AThen (x : nat) (h1 h2 : handler)
  | ANewPromise
  | AStartSpan (name : string)
  | AEmit (ev : event).

Definition perform (a : action) (w : World) : World :=
  match a with
  | ARunJob => run_next_job w
  | AResolve x v => resolve_promise x v w
  | AReject x e => reject_promise x e w
  | AThen x h1 h2 => snd (promise_then x h1 h2 w)
  | ANewPromise => snd (new_promise w)
  | AStartSpan name => snd (tracer_startSpan name w)
  | AEmit ev => snd (emit ev w)
  end.

Definition perform_all (acts : list action) (w : World) : World :=
  foldl (λ w a, perform a w) w acts.

Section ChainDefinitions.

(** The span of the invocation, the promise [p] its operation returned, the
    promise [q1] derived by [.then] and the promise [q2] derived by [.catch]
    and returned to the caller; [before] is what the provider was told about
    the span when [withSpan] returned. *)
Variables (span p q1 q2 : nat) (before : list event).

(** Callbacks, reactions and jobs of the rest of the program: they are not
    closed over the span, and do not settle [q1] or [q2]. *)
Definition hclean (h : handler) : Prop :=
  match h with
  | HDefault => True
  | HSpanOk s | HSpanErr s => s ≠ span
  | HResolve t | HReject t => t ≠ q1 ∧ t ≠ q2
  end.

Definition rclean (r : reaction) : Prop :=
  hclean (on_fulfilled r) ∧ hclean (on_rejected r) ∧ derived r ≠ q1 ∧ derived r ≠ q2.

Definition jclean (j : job) : Prop :=
  match j with
  | JReact h _ _ t => hclean h ∧ t ≠ q1 ∧ t ≠ q2
  | JAdopt _ t => t ≠ q1 ∧ t ≠ q2
  end.

(** The steps the rest of the program can take. *)
Definition permitted (a : action) : Prop :=
  match a with
  | ARunJob | ANewPromise | AStartSpan _ => True
  | AResolve x _ | AReject x _ => x ≠ q1 ∧ x ≠ q2
  | AThen _ h1 h2 => hclean h1 ∧ hclean h2
  | AEmit ev => event_span ev ≠ span
  end.

(** The two reactions that [withSpan] attaches. *)
Definition then_reaction : reaction := Reaction (HSpanOk span) HDefault q1.
Definition catch_reaction : reaction := Reaction HDefault (HSpanErr span) q2.

(** [r] is in [rs], among clean reactions. *)
Definition among_reactions (r : reaction) (rs : list reaction) : Prop :=
  ∃ a c, rs = a ++ r :: c ∧ Forall rclean a ∧ Forall rclean c.

(** [j] is in the queue behind the clean jobs [a], among clean jobs. *)
Definition among_jobs (j : job) (a : list job) (js : list job) : Prop :=
  ∃ c, js = a ++ j :: c ∧ Forall jclean a ∧ Forall jclean c.

(** [j] is in the queue right behind the clean jobs [a]. *)
Definition behind (j : job) (a : list job) (js : list job) : Prop :=
  ∃ c, js = a ++ j :: c ∧ Forall jclean a.

(** What holds of the rest of the world throughout. *)
Record base (w : World) : Prop := Base {
  base_span : span < next_span w;
  base_then : q1 < length (heap w);
  base_catch : q2 < length (heap w);
  base_others :
    ∀ x rs, heap w !! x = Some (Pending rs) → x ≠ p → x ≠ q1 → Forall rclean rs;
}.

(** Where the chain stands. *)
Inductive phase (w : World) : Prop :=
  | Waiting rs rs1 rs2 :
      heap w !! p = Some (Pending rs) → among_reactions then_reaction rs →
      heap w !! q1 = Some (Pending rs1) → among_reactions catch_reaction rs1 →
      heap w !! q2 = Some (Pending rs2) →
      Forall jclean (queue w) →
      span_events span (log w) = before →
      phase w
  | SourceSettled rejected arg a rs1 rs2 :
      heap w !! p = Some (settled rejected arg) →
      (rejected = false → plain arg) →
      among_jobs (reaction_job rejected arg then_reaction) a (queue w) →
      heap w !! q1 = Some (Pending rs1) → among_reactions catch_reaction rs1 →
      heap w !! q2 = Some (Pending rs2) →
      span_events span (log w) = before →
      phase w
  | ThenSettled rejected arg a rs2 :
      heap w !! p = Some (settled rejected arg) →
      (rejected = false → plain arg) →
      heap w !! q1 = Some (settled rejected arg) →
      among_jobs (reaction_job rejected arg catch_reaction) a (queue w) →
      heap w !! q2 = Some (Pending rs2) →
      span_events span (log w) = before ++ (if rejected then [] else ended_ok span) →
      phase w
  | Done rejected arg :
      heap w !! p = Some (settled rejected arg) →
      (rejected = false → plain arg) →
      heap w !! q1 = Some (settled rejected arg) →
      heap w !! q2 = Some (if rejected then Rejected (passed_on arg) else Fulfilled arg) →
      Forall jclean (queue w) →
      span_events span (log w)
      = before ++ (if rejected then rejection_events span arg else ended_ok span) →
      phase w.

Definition chain (w : World) : Prop := base w ∧ phase w.

End ChainDefinitions.

(** ** [sleep], and operations that only return *)

(** [sleep(ms)]: an [async] function that returns
    [new Promise((resolve) => setTimeout(resolve, ms))].  The call makes the
    promise of the [async] function, then the promise of the body, and
    resolves the first with the second, which it follows from a job of its
    own.  The timer is the environment's: when it fires it calls the resolve
    function of the second promise with no argument; [ms] says when, and time
    is not part of the world. *)
Definition sleep (ms : Z) : M value :=
  outer <- new_promise ;;
  inner <- new_promise ;;
  (λ w, (Normal tt, resolve_promise outer (VPromise inner) w)) ;;
  ret (VPromise outer).

(** The timer of [sleep] fires: [resolve()] on the promise of the body. *)
Definition timer_fires (inner : nat) (w : World) : World :=
  resolve_promise inner VUndefined w.

(** An operation such as [() => ({ ... })]: it returns [v] and does nothing
    else. *)
Definition returns_only (op : M value) (v : value) : Prop :=
  ∀ w, op w = (Normal v, w).

(** The provider calls of a synchronous, successful invocation. *)
Definition traced_ok (span : nat) (name : string) (attrs : option attributes) : list event :=
  EStart span name ::
  match attrs with
  | Some a => [ESetAttributes span a]
  | None => []
  end ++ ended_ok span.

(** * Properties *)

(** ** The log *)

Lemma end_count_app span l l' :
  end_count span (l ++ l') = end_count span l + end_count span l'.
Proof. unfold end_count. by rewrite filter_app, length_app. Qed.

Lemma span_status_app span l l' :
  span_status span (l ++ l') =
  match span_status span l' with
  | Some st => Some st
  | None => span_status span l
  end.
Proof.
  induction l as [|ev l IH]; simpl.
  - by destruct (span_status span l').
  - rewrite IH. by destruct (span_status span l').
Qed.

Lemma span_exceptions_app span l l' :
  span_exceptions span (l ++ l') = span_exceptions span l ++ span_exceptions span l'.
Proof.
  induction l as [|ev l IH]; simpl; [done|].
  destruct ev; try done. case_decide; simpl; by rewrite IH.
Qed.

Lemma end_count_ended_ok span : end_count span (ended_ok span) = 1.
Proof. unfold end_count, ended_ok. simpl. rewrite !filter_cons. simpl.
  rewrite bool_decide_eq_true_2 by done. simpl. done. Qed.

(** ** The paths through [withSpan] *)

(** Runs the provider calls of a computation. *)
Ltac run_calls :=
  cbv [bind try_catch ret throw emit set_log ended_ok ended_error
       span_setStatus span_recordException span_end span_setAttributes];
  simpl.

Section Paths.

Variables (name : string) (fn : M value) (attrs : option attributes).
Variable w : World.

(** The operation is called once, in the world where the span is open. *)
Lemma withSpan_opens :
  withSpan name fn attrs w =
  try_catch
    (result <- fn ;;
     match result with
     | VPromise p =>
         q <- promise_then p (HSpanOk (next_span w)) HDefault ;;
         q' <- promise_catch q (HSpanErr (next_span w)) ;;
         ret (VPromise q')
     | _ => span_setStatus (next_span w) OK None ;; span_end (next_span w) ;; ret result
     end)
    (λ error,
       message <- get_message error ;;
       span_setStatus (next_span w) ERROR (Some message) ;;
       span_recordException (next_span w) error ;;
       span_end (next_span w) ;;
       throw error)
    (span_opened name attrs w).
Proof.
  unfold withSpan, tracer_startActiveSpan, tracer_startSpan, span_opened, bind at 1 2.
  destruct attrs; simpl; unfold set_log; simpl; [|done].
  by rewrite <- app_assoc.
Qed.

(** Synchronous success. *)
Lemma withSpan_returns v w2 :
  fn (span_opened name attrs w) = (Normal v, w2) →
  instanceof_Promise v = false →
  withSpan name fn attrs w = (Normal v, set_log (λ l, l ++ ended_ok (next_span w)) w2).
Proof.
  intros Hfn Hv. rewrite withSpan_opens. unfold try_catch, bind at 1. rewrite Hfn.
  destruct v; try discriminate; simpl;
    unfold set_log; simpl; by rewrite <- app_assoc.
Qed.

(** Synchronous throw of a value whose [message] can be read. *)
Lemma withSpan_throws e m w2 :
  fn (span_opened name attrs w) = (Throw e, w2) →
  get_message e w2 = (Normal m, w2) →
  withSpan name fn attrs w = (Throw e, set_log (λ l, l ++ ended_error (next_span w) m e) w2).
Proof.
  intros Hfn Hm. rewrite withSpan_opens. unfold try_catch, bind at 1. rewrite Hfn.
  unfold bind at 1. rewrite Hm. run_calls.
  by rewrite <- !app_assoc.
Qed.

(** Synchronous throw of [undefined] or [null]: reading [error.message]
    throws, and the rest of the [catch] block does not run. *)
Lemma withSpan_throws_nullish e w2 :
  fn (span_opened name attrs w) = (Throw e, w2) →
  e = VUndefined ∨ e = VNull →
  ∃ t, withSpan name fn attrs w = (Throw (VTypeError t), w2).
Proof.
  intros Hfn He. rewrite withSpan_opens. unfold try_catch, bind at 1. rewrite Hfn.
  destruct He as [-> | ->]; eexists; reflexivity.
Qed.

(** A native promise is returned: the two callbacks are attached, and
    nothing is said to the provider yet. *)
Lemma withSpan_attaches p w2 :
  fn (span_opened name attrs w) = (Normal (VPromise p), w2) →
  let q := length (heap w2) in
  withSpan name fn attrs w =
  (Normal (VPromise (S q)),
   snd (promise_catch q (HSpanErr (next_span w))
          (snd (promise_then p (HSpanOk (next_span w)) HDefault w2)))).
Proof.
  intros Hfn q. rewrite withSpan_opens. unfold try_catch, bind at 1. rewrite Hfn.
  unfold bind. simpl.
  replace (length (heap _)) with (S q); [done|].
  destruct (heap w2 !! p) as [[]|]; simpl;
    rewrite ?length_insert, ?length_app; simpl; subst q; lia.
Qed.

End Paths.

Lemma promise_then_log p h1 h2 w : log (snd (promise_then p h1 h2 w)) = log w.
Proof. unfold promise_then. simpl. by destruct (heap w !! p) as [[]|]. Qed.

(** ** Synchronous completion *)

(** C4: an operation that completes synchronously with a plain (non-promise)
    value has status OK set on its span, the span ended, and its value
    returned unchanged, all within the call; [withSpan("x", () => 42)] returns
    42 and the span named "x" records status OK. *)
Theorem withSpan_plain_value :
  (∀ name fn attrs w v w2,
      fn (span_opened name attrs w) = (Normal v, w2) →
      instanceof_Promise v = false →
      let span := next_span w in
      let r := withSpan name fn attrs w in
      fst r = Normal v ∧
      log (snd r) = log w2 ++ [ESetStatus span OK None; EEnd span] ∧
      span_status span (log (snd r)) = Some (OK, None) ∧
      heap (snd r) = heap w2 ∧ queue (snd r) = queue w2) ∧
  (let r := withSpan "x" (ret (VNum 42)) None empty_world in
   fst r = Normal (VNum 42) ∧
   span_name 0 (log (snd r)) = Some "x" ∧
   span_status 0 (log (snd r)) = Some (OK, None) ∧
   end_count 0 (log (snd r)) = 1).
Proof.
  split; [|by vm_compute].
  intros name fn attrs w v w2 Hfn Hv span r. subst r.
  rewrite (withSpan_returns _ _ _ _ _ _ Hfn Hv). simpl.
  repeat split. rewrite span_status_app. simpl. by rewrite decide_True.
Qed.

Lemma withSpan_plain_value_witness :
  let r := withSpan "boot" (ret (VStr "ready")) (Some {[ "phase" := VNum 1 ]}) empty_world in
  fst r = Normal (VStr "ready") ∧
  log (snd r) = [EStart 0 "boot"; ESetAttributes 0 {[ "phase" := VNum 1 ]}] ++
                [ESetStatus 0 OK None; EEnd 0] ∧
  span_status 0 (log (snd r)) = Some (OK, None) ∧
  heap (snd r) = [] ∧ queue (snd r) = [].
Proof.
  apply (proj1 withSpan_plain_value "boot" (ret (VStr "ready"))
               (Some {[ "phase" := VNum 1 ]}) empty_world (VStr "ready")
               (span_opened "boot" (Some {[ "phase" := VNum 1 ]}) empty_world));
    reflexivity.
Defined.

(** C9: the result is treated as asynchronous only when it is an instance of
    the native [Promise]: for any other returned value, a foreign thenable
    included, status OK is set and the span is ended at once, nothing is
    attached to the value, and it is returned unchanged; for a native promise
    nothing is said to the provider within the call. *)
Theorem withSpan_instanceof_only name fn attrs w v w2 :
  fn (span_opened name attrs w) = (Normal v, w2) →
  let span := next_span w in
  let r := withSpan name fn attrs w in
  (instanceof_Promise v = false →
     r = (Normal v, set_log (λ l, l ++ ended_ok span) w2)) ∧
  (∀ a, v = VThenable a →
     fst r = Normal (VThenable a) ∧
     log (snd r) = log w2 ++ ended_ok span ∧
     heap (snd r) = heap w2 ∧ queue (snd r) = queue w2) ∧
  (instanceof_Promise v = true →
     log (snd r) = log w2 ∧ fst r = Normal (VPromise (S (length (heap w2))))).
Proof.
  intros Hfn span r. subst r. split; [|split].
  - intros Hv. by apply withSpan_returns.
  - intros a ->. by rewrite (withSpan_returns _ _ _ _ _ _ Hfn eq_refl).
  - destruct v; try discriminate. intros _.
    rewrite (withSpan_attaches _ _ _ _ _ _ Hfn). cbn [fst snd]. split; [|done].
    unfold promise_catch. by rewrite !promise_then_log.
Qed.

Lemma withSpan_instanceof_only_witness :
  withSpan "poll" (ret (VThenable 7)) None empty_world =
    (Normal (VThenable 7),
     mkWorld [EStart 0 "poll"; ESetStatus 0 OK None; EEnd 0] 1 [] []) ∧
  (let r := withSpan "wait" (p <- new_promise ;; ret (VPromise p)) None empty_world in
   log (snd r) = [EStart 0 "wait"] ∧ fst r = Normal (VPromise 2)).
Proof.
  split.
  - apply (proj1 (withSpan_instanceof_only "poll" (ret (VThenable 7)) None empty_world
                    (VThenable 7) (span_opened "poll" None empty_world) eq_refl)).
    reflexivity.
  - apply (proj2 (proj2 (withSpan_instanceof_only
                    "wait" (p <- new_promise ;; ret (VPromise p)) None empty_world
                    (VPromise 0)
                    (mkWorld [EStart 0 "wait"] 1 [Pending []] []) eq_refl))).
    reflexivity.
Defined.

(** ** The helpers *)

Lemma truthy_string s : truthy (VStr s) = bool_decide (s ≠ "").
Proof.
  simpl. destruct (String.eqb_spec s ""); simpl.
  - by rewrite bool_decide_eq_false_2 by (by intros ?).
  - by rewrite bool_decide_eq_true_2.
Qed.

Lemma name_or_anonymous_spec name :
  name_or_anonymous name = if decide (name = "") then "anonymous" else name.
Proof.
  unfold name_or_anonymous. rewrite truthy_string.
  case_decide; [by rewrite bool_decide_eq_false_2 by (by intros ?)|].
  by rewrite bool_decide_eq_true_2.
Qed.

(** C5, as stated, fails for a prefix that is given and empty: the name is
    the bare identifier, not [prefix + "." + identifier]. *)
Lemma autoTrace_empty_prefix_counterexample :
  autoTrace_spanName "load" (Some (TraceOptions (Some "") None)) = "load" ∧
  autoTrace_spanName "load" (Some (TraceOptions (Some "") None)) ≠ "" +:+ "." +:+ "load".
Proof. split; [reflexivity | discriminate]. Qed.

(** C5 (amended): [autoTrace] runs the callable under [withSpan] with a name
    that is a function of the identifier and the prefix alone: a non-empty
    prefix gives [prefix + "." + identifier], no prefix or an empty one gives
    the bare identifier, and an empty identifier is replaced by "anonymous";
    the same identifier and prefix give the same name. *)
Theorem autoTrace_span_name fn options args :
  let id := if decide (fn_name fn = "") then "anonymous" else fn_name fn in
  let spanName := autoTrace_spanName (fn_name fn) options in
  autoTrace fn options args =
    withSpan spanName (fn_call fn args) (options ≫= opt_attributes) ∧
  (∀ p, options ≫= prefix = Some p → p ≠ "" → spanName = p +:+ "." +:+ id) ∧
  (options ≫= prefix = None ∨ options ≫= prefix = Some "" → spanName = id) ∧
  (∀ fn' options',
      fn_name fn' = fn_name fn → options' ≫= prefix = options ≫= prefix →
      autoTrace_spanName (fn_name fn') options' = spanName).
Proof.
  intros id spanName. subst id spanName. split; [done|].
  unfold autoTrace_spanName. rewrite name_or_anonymous_spec. repeat split.
  - intros p -> Hp. rewrite truthy_string. by rewrite bool_decide_eq_true_2.
  - by intros [-> | ->].
  - intros fn' options' -> ->. by rewrite name_or_anonymous_spec.
Qed.

Lemma autoTrace_span_name_witness :
  autoTrace_spanName "fetchUser" (Some (TraceOptions (Some "api") None)) = "api.fetchUser" ∧
  autoTrace_spanName "" None = "anonymous".
Proof.
  split.
  - apply (proj1 (proj2 (autoTrace_span_name
                    (Callable "fetchUser" (λ _, ret (VNum 1)))
                    (Some (TraceOptions (Some "api") None)) [])) "api");
      [reflexivity | discriminate].
  - apply (proj1 (proj2 (proj2 (autoTrace_span_name
                    (Callable "" (λ _, ret (VNum 1))) None [])))).
    left. reflexivity.
Defined.




Lemma component_process_lookup type recordCount k :
  component_process_attributes type recordCount !! k =
  if decide (k = "processing.record_count")
  then VNum <$> recordCount
  else if decide (k = "processing.type")
       then (if truthy (of_optional_string type) then VStr <$> type else None)
       else None.
Proof.
  unfold component_process_attributes, spread.
  destruct recordCount as [n|], type as [t|]; cbn [of_optional_string];
    repeat case_decide; subst; try done;
    try destruct (truthy (VStr t)); cbn [truthy];
    rewrite ?lookup_union, ?lookup_empty, ?lookup_singleton_eq;
    rewrite ?lookup_singleton_ne by done; done.
Qed.

Lemma component_process_scalar type recordCount k v :
  component_process_attributes type recordCount !! k = Some v → is_scalar v.
Proof.
  rewrite component_process_lookup. repeat case_decide; [| |done].
  - destruct recordCount; [|done]. by intros [= <-].
  - destruct (truthy _); [|done]. destruct type; [|done]. by intros [= <-].
Qed.

Lemma db_query_scalar statement k v :
  db_query_attributes statement !! k = Some v → is_scalar v.
Proof.
  unfold db_query_attributes. destruct statement as [s|]; cbn [of_optional_string truthy].
  - destruct (negb _).
    + by intros [[_ <-]|[_ [_ <-]%lookup_singleton_Some]]%lookup_insert_Some.
    + by intros [_ <-]%lookup_singleton_Some.
  - by intros [_ <-]%lookup_singleton_Some.
Qed.

(** C8: an optional attribute that the caller does not supply is not a key of
    the attribute set the helper builds, for [component.process] (type, record
    count) and for [db.query] (statement); no key of these sets holds
    [undefined] or [null]. *)
Theorem optional_attributes_omitted operation type recordCount statement :
  component_process operation type recordCount =
    withSpan "data.processing" operation
             (Some (component_process_attributes type recordCount)) ∧
  (type = None →
     component_process_attributes type recordCount !! "processing.type" = None) ∧
  (recordCount = None →
     component_process_attributes type recordCount !! "processing.record_count" = None) ∧
  (statement = None → db_query_attributes statement !! "db.statement" = None) ∧
  (∀ k v,
      component_process_attributes type recordCount !! k = Some v ∨
      db_query_attributes statement !! k = Some v →
      v ≠ VUndefined ∧ v ≠ VNull).
Proof.
  split; [done|]. split; [|split; [|split]].
  - intros ->. by rewrite component_process_lookup.
  - intros ->. by rewrite component_process_lookup.
  - by intros ->.
  - intros k v [H%component_process_scalar | H%db_query_scalar];
      by destruct v.
Qed.

Lemma optional_attributes_omitted_witness :
  component_process_attributes None None !! "processing.type" = None ∧
  component_process_attributes None None !! "processing.record_count" = None ∧
  db_query_attributes None !! "db.statement" = None ∧
  VStr "postgresql" ≠ VUndefined ∧ VStr "postgresql" ≠ VNull.
Proof.
  pose proof (optional_attributes_omitted (ret VNull) None None None)
    as (_ & Ht & Hn & Hs & Hv).
  split; [exact (Ht eq_refl)|]. split; [exact (Hn eq_refl)|].
  split; [exact (Hs eq_refl)|].
  apply (Hv "db.system"). right. reflexivity.
Defined.

(** C10: [component.process] runs the operation under [withSpan] with an
    attribute set whose two optional entries pass different tests: a record
    count is kept whenever it is supplied, 0 included, and a type only when
    it is truthy, so that the empty string is dropped.  On an operation that
    returns a value, that set is what [setAttributes] is called with, once,
    after the span is started and before its status is set. *)
Theorem component_process_guards operation type recordCount :
  let a := component_process_attributes type recordCount in
  component_process operation type recordCount
  = withSpan "data.processing" operation (Some a) ∧
  (∀ v w, returns_only operation v → instanceof_Promise v = false →
     let s := next_span w in
     log (snd (component_process operation type recordCount w))
     = log w ++ [EStart s "data.processing"; ESetAttributes s a;
                 ESetStatus s OK None; EEnd s]) ∧
  (recordCount = Some 0%Z → a !! "processing.record_count" = Some (VNum 0)) ∧
  (type = Some "" → a !! "processing.type" = None) ∧
  a !! "processing.record_count" = VNum <$> recordCount ∧
  a !! "processing.type" = match type with
                           | Some t => if decide (t = "") then None else Some (VStr t)
                           | None => None
                           end.
Proof.
  intros a. subst a. split; [done|]. split; [|split; [|split; [|split]]].
  - intros v w Hop Hv s. unfold component_process.
    rewrite (withSpan_returns _ _ _ _ _ _ (Hop _) Hv). simpl.
    by rewrite <- app_assoc.
  - intros ->. by rewrite component_process_lookup.
  - intros ->. by rewrite component_process_lookup.
  - by rewrite component_process_lookup.
  - rewrite component_process_lookup. simpl.
    destruct type as [t|]; [|done]. cbn [of_optional_string].
    rewrite truthy_string. by repeat case_decide; case_bool_decide.
Qed.

Lemma component_process_guards_witness :
  log (snd (component_process (ret (VNum 7)) (Some "") (Some 0%Z) empty_world))
  = [EStart 0 "data.processing";
     ESetAttributes 0 {[ "processing.record_count" := VNum 0 ]};
     ESetStatus 0 OK None; EEnd 0] ∧
  component_process_attributes (Some "") (Some 0%Z) !! "processing.record_count"
  = Some (VNum 0) ∧
  component_process_attributes (Some "") (Some 0%Z) !! "processing.type" = None.
Proof.
  destruct (component_process_guards (ret (VNum 7)) (Some "") (Some 0%Z))
    as (_ & Hlog & Hn & Ht & _).
  split; [|split; [exact (Hn eq_refl)|exact (Ht eq_refl)]].
  apply (Hlog (VNum 7) empty_world); [intros w; reflexivity|reflexivity].
Defined.

Section ApiProperties.

Variable URL_hostname : string → option string.


End ApiProperties.


(** ** Failure paths *)

Lemma run_jobs_idle n w : queue w = [] → run_jobs n w = w.
Proof.
  intros Hq. induction n as [|n IH]; simpl; [done|].
  unfold run_next_job. by rewrite Hq.
Qed.

(** C1 asks for the span to be ended exactly once on every path.  It is not
    on the path where the operation throws [undefined]: reading
    [error.message] in the [catch] block throws before [span.end()] is reached,
    so the span is started and never ended, within the call or by any job
    that runs after it. *)
Theorem withSpan_throw_undefined_never_ends :
  let r := withSpan "x" (throw VUndefined) None empty_world in
  fst r = Throw (VTypeError "Cannot read properties of undefined (reading 'message')") ∧
  log (snd r) = [EStart 0 "x"] ∧
  end_count 0 (log (snd r)) = 0 ∧
  ∀ n, end_count 0 (log (run_jobs n (snd r))) = 0.
Proof.
  repeat split. intros n. by rewrite run_jobs_idle.
Qed.

(** C2 asks for a failed operation to leave its span with status ERROR and
    the thrown value recorded, and for that same value to be thrown again.
    It does not when the operation throws [null], or returns a promise
    rejected with [null]: a [TypeError] of the engine reaches the caller in
    its place, no status is set and no exception is recorded. *)
Theorem withSpan_null_error_replaced :
  (let r := withSpan "x" (throw VNull) None empty_world in
   fst r = Throw (VTypeError "Cannot read properties of null (reading 'message')") ∧
   fst r ≠ Throw VNull ∧
   span_status 0 (log (snd r)) = None ∧
   span_exceptions 0 (log (snd r)) = []) ∧
  (let r := withSpan "x" (rejected_operation VNull) None empty_world in
   let w := run_jobs 2 (snd r) in
   fst r = Normal (VPromise 2) ∧
   heap w !! 2 =
     Some (Rejected (VTypeError "Cannot read properties of null (reading 'message')")) ∧
   queue w = [] ∧
   span_status 0 (log w) = None ∧
   span_exceptions 0 (log w) = []).
Proof. by vm_compute. Qed.

(** C3 asks, for an operation that returns a pending promise, that on
    rejection status ERROR is set, the error recorded, the span ended and the
    same rejection passed on.  When the promise is rejected with [undefined]
    the span is not ended before the promise settles, and not after either:
    the [.catch] callback throws on [error.message], the returned promise is
    rejected with that [TypeError], and the log is left at the start event. *)
Theorem withSpan_pending_rejected_undefined :
  let r := withSpan "x" pending_operation None empty_world in
  let w := run_jobs 2 (reject_promise 0 VUndefined (snd r)) in
  fst r = Normal (VPromise 2) ∧
  heap (snd r) !! 0 =
    Some (Pending [Reaction (HSpanOk 0) HDefault 1]) ∧
  end_count 0 (log (snd r)) = 0 ∧
  heap w !! 2 =
    Some (Rejected (VTypeError "Cannot read properties of undefined (reading 'message')")) ∧
  queue w = [] ∧
  log w = [EStart 0 "x"] ∧
  end_count 0 (log w) = 0.
Proof. by vm_compute. Qed.

(** ** The two callbacks, as jobs *)

Lemma get_message_reads e w :
  ¬ unreadable e → get_message e w = (Normal (message_of e), w).
Proof. intros He. destruct e; try done; by destruct He. Qed.

Lemma get_message_readable e w :
  readable e → get_message e w = (Normal (message_of e), w).
Proof. by destruct e. Qed.

Lemma get_message_unreadable e w :
  unreadable e → get_message e w = (Throw (passed_on e), w).
Proof. by destruct e. Qed.

(** Synchronous throw of a value whose [message] throws when read: the rest
    of the [catch] block does not run. *)
Lemma withSpan_throws_unreadable name fn attrs w e w2 :
  fn (span_opened name attrs w) = (Throw e, w2) →
  unreadable e →
  withSpan name fn attrs w = (Throw (passed_on e), w2).
Proof.
  intros Hfn He. rewrite withSpan_opens. unfold try_catch, bind at 1. rewrite Hfn.
  unfold bind. by rewrite get_message_unreadable.
Qed.

Lemma run_job_onFulfilled span rejected v target w :
  run_job (JReact (HSpanOk span) rejected v target) w =
  resolve_promise target v (set_log (λ l, l ++ ended_ok span) w).
Proof.
  unfold run_job, run_handler, withSpan_onFulfilled. run_calls.
  by rewrite <- app_assoc.
Qed.

Lemma run_job_onRejected span rejected e target w :
  readable e →
  run_job (JReact (HSpanErr span) rejected e target) w =
  reject_promise target e (set_log (λ l, l ++ ended_error span (message_of e) e) w).
Proof.
  intros He. unfold run_job, run_handler, withSpan_onRejected.
  unfold bind at 1. rewrite (get_message_readable _ _ He). run_calls.
  by rewrite <- !app_assoc.
Qed.

Lemma run_job_onRejected_nullish span rejected e target w :
  e = VUndefined ∨ e = VNull →
  ∃ t, run_job (JReact (HSpanErr span) rejected e target) w =
       reject_promise target (VTypeError t) w.
Proof. intros [-> | ->]; eexists; reflexivity. Qed.

Lemma run_job_default rejected arg target w :
  run_job (JReact HDefault rejected arg target) w =
  if rejected then reject_promise target arg w else resolve_promise target arg w.
Proof. unfold run_job, run_handler. by destruct rejected. Qed.

(** ** A pending promise, from attachment to settlement *)

Lemma resolve_promise_plain p v w :
  plain v → resolve_promise p v w = fulfill_promise p v w.
Proof. by destruct v. Qed.

Lemma settle_promise_pending rejected p arg w rs :
  heap w !! p = Some (Pending rs) →
  settle_promise rejected p arg w =
  mkWorld (log w) (next_span w)
          (<[p := if rejected then Rejected arg else Fulfilled arg]> (heap w))
          (queue w ++ map (reaction_job rejected arg) rs).
Proof. intros H. unfold settle_promise. by rewrite H. Qed.

Lemma withSpan_attaches_pending name fn attrs w p w2 rs :
  fn (span_opened name attrs w) = (Normal (VPromise p), w2) →
  heap w2 !! p = Some (Pending rs) →
  withSpan name fn attrs w =
  (Normal (VPromise (S (length (heap w2)))),
   mkWorld (log w2) (next_span w2) (attached (next_span w) p rs (heap w2)) (queue w2)).
Proof.
  intros Hfn Hp. rewrite (withSpan_attaches _ _ _ _ _ _ Hfn). f_equal.
  pose proof (lookup_lt_Some _ _ _ Hp) as Hlt.
  unfold promise_catch, promise_then at 2. cbn [snd]. rewrite Hp.
  unfold promise_then, attached. cbn.
  rewrite length_insert, length_app. cbn.
  replace (length (heap w2) + 1) with (S (length (heap w2))) by lia.
  rewrite list_lookup_insert_ne by lia.
  rewrite lookup_app_r by lia. rewrite Nat.sub_diag. cbn.
  unfold set_heap. cbn. done.
Qed.

Lemma attached_length span p rs h : length (attached span p rs h) = S (S (length h)).
Proof. unfold attached. rewrite !length_insert, !length_app, length_insert, length_app. simpl. lia. Qed.

Lemma attached_lookup_source span p rs h :
  p < length h →
  attached span p rs h !! p
  = Some (Pending (rs ++ [Reaction (HSpanOk span) HDefault (length h)])).
Proof.
  intros Hp. unfold attached.
  rewrite list_lookup_insert_ne by lia.
  rewrite lookup_app_l by (rewrite length_insert, length_app; simpl; lia).
  apply list_lookup_insert_eq. rewrite length_app. simpl. lia.
Qed.

Lemma attached_lookup_then span p rs h :
  p < length h →
  attached span p rs h !! length h
  = Some (Pending [Reaction HDefault (HSpanErr span) (S (length h))]).
Proof.
  intros Hp. unfold attached. apply list_lookup_insert_eq.
  rewrite length_app, length_insert, length_app. simpl. lia.
Qed.

Lemma attached_lookup_catch span p rs h :
  attached span p rs h !! S (length h) = Some (Pending []).
Proof.
  unfold attached. rewrite list_lookup_insert_ne by lia.
  rewrite lookup_app_r by (rewrite length_insert, length_app; simpl; lia).
  rewrite length_insert, length_app. simpl.
  by replace (S (length h) - (length h + 1)) with 0 by lia.
Qed.

Lemma settle_promise_mk rejected p arg l n h q rs :
  h !! p = Some (Pending rs) →
  settle_promise rejected p arg (mkWorld l n h q) =
  mkWorld l n (<[p := if rejected then Rejected arg else Fulfilled arg]> h)
          (q ++ map (reaction_job rejected arg) rs).
Proof. intros H. unfold settle_promise. cbn [heap]. by rewrite H. Qed.

Lemma run_next_job_mk l n h j js :
  run_next_job (mkWorld l n h (j :: js)) = run_job j (mkWorld l n h js).
Proof. done. Qed.

(** With nothing else waiting on the promise and no job queued, settling it
    runs the two jobs of the chain. *)
Lemma attached_settles span p h l n (rejected : bool) arg :
  h !! p = Some (Pending []) →
  (if rejected then readable arg else plain arg) →
  let w := run_jobs 2 (settle_promise rejected p arg
                         (mkWorld l n (attached span p [] h) [])) in
  let st := if rejected then Rejected arg else Fulfilled arg in
  log w = l ++ (if rejected then ended_error span (message_of arg) arg
                else ended_ok span) ∧
  heap w !! p = Some st ∧
  heap w !! S (length h) = Some st ∧
  queue w = [] ∧ next_span w = n.
Proof.
  intros Hp Harg.
  pose proof (lookup_lt_Some _ _ _ Hp) as Hlt.
  pose proof (attached_lookup_source span p [] h Hlt) as H0.
  pose proof (attached_lookup_then span p [] h Hlt) as H1.
  pose proof (attached_lookup_catch span p [] h) as H2.
  pose proof (attached_length span p [] h) as Hlen.
  cbn zeta. rewrite (settle_promise_mk _ _ _ _ _ _ _ _ H0).
  set (h0 := attached span p [] h) in *.
  change (run_jobs 2 ?w) with (run_next_job (run_next_job w)).
  destruct rejected;
    cbn [app map]; unfold reaction_job; cbn [on_fulfilled on_rejected derived];
    rewrite run_next_job_mk.
  - rewrite run_job_default. unfold reject_promise.
    rewrite (settle_promise_mk _ _ _ _ _ _ _ [Reaction HDefault (HSpanErr span) (S (length h))])
      by (by rewrite list_lookup_insert_ne by lia).
    cbn [app map]; unfold reaction_job; cbn [on_fulfilled on_rejected derived].
    rewrite run_next_job_mk, run_job_onRejected by done.
    unfold reject_promise, set_log. cbn [log next_span heap queue].
    rewrite (settle_promise_mk _ _ _ _ _ _ _ [])
      by (by rewrite !list_lookup_insert_ne by lia).
    cbn [log next_span heap queue app map]. repeat split.
    + rewrite !list_lookup_insert_ne by lia. apply list_lookup_insert_eq. lia.
    + apply list_lookup_insert_eq. rewrite !length_insert. lia.
  - rewrite run_job_onFulfilled, resolve_promise_plain by done.
    unfold fulfill_promise, set_log. cbn [log next_span heap queue].
    rewrite (settle_promise_mk _ _ _ _ _ _ _ [Reaction HDefault (HSpanErr span) (S (length h))])
      by (by rewrite list_lookup_insert_ne by lia).
    cbn [app map]; unfold reaction_job; cbn [on_fulfilled on_rejected derived].
    rewrite run_next_job_mk, run_job_default, resolve_promise_plain by done.
    unfold fulfill_promise.
    rewrite (settle_promise_mk _ _ _ _ _ _ _ [])
      by (by rewrite !list_lookup_insert_ne by lia).
    cbn [log next_span heap queue app map]. repeat split.
    + rewrite !list_lookup_insert_ne by lia. apply list_lookup_insert_eq. lia.
    + apply list_lookup_insert_eq. rewrite !length_insert. lia.
Qed.

Lemma end_count_ended_error span m e : end_count span (ended_error span m e) = 1.
Proof.
  unfold end_count, ended_error. rewrite !filter_cons. simpl.
  by rewrite bool_decide_eq_true_2.
Qed.

(** X1: an operation that returns or throws: when it has not ended the span
    itself and what it throws has a readable [message], [withSpan] makes
    exactly these provider calls after it, in this order, and nothing else:
    status OK and end, the value returned; or status ERROR with the [message]
    read from the thrown value, that value recorded, end, and that value
    thrown again.  The span is ended exactly once by the time [withSpan]
    returns. *)
Lemma withSpan_synchronous_once name fn attrs w c w2 :
  fn (span_opened name attrs w) = (c, w2) →
  end_count (next_span w) (log w2) = 0 →
  match c with
  | Normal v => instanceof_Promise v = false
  | Throw e => readable e
  end →
  let span := next_span w in
  let r := withSpan name fn attrs w in
  fst r = c ∧
  log (snd r) = log w2 ++
    match c with
    | Normal _ => [ESetStatus span OK None; EEnd span]
    | Throw e =>
        [ESetStatus span ERROR (Some (message_of e)); ERecordException span e; EEnd span]
    end ∧
  next_span (snd r) = next_span w2 ∧
  heap (snd r) = heap w2 ∧ queue (snd r) = queue w2 ∧
  end_count span (log (snd r)) = 1 ∧
  match c with
  | Normal _ => span_status span (log (snd r)) = Some (OK, None)
  | Throw e =>
      span_status span (log (snd r)) = Some (ERROR, Some (message_of e)) ∧
      span_exceptions span (log (snd r)) = span_exceptions span (log w2) ++ [e]
  end.
Proof.
  intros Hfn Hend Hc span r. subst r span. destruct c as [v|e].
  - rewrite (withSpan_returns _ _ _ _ _ _ Hfn Hc).
    cbn [fst snd set_log log next_span heap queue].
    rewrite end_count_app, Hend, end_count_ended_ok, span_status_app. simpl.
    by rewrite decide_True.
  - rewrite (withSpan_throws _ _ _ _ _ _ _ Hfn (get_message_readable _ _ Hc)).
    cbn [fst snd set_log log next_span heap queue].
    rewrite end_count_app, Hend, end_count_ended_error, span_status_app,
      span_exceptions_app. simpl.
    by rewrite !decide_True.
Qed.

(** X13: an operation that returns a pending promise with nothing queued: the
    span is not ended when [withSpan] returns; once the promise is fulfilled with
    [v] or rejected with a readable [e], the chain's two jobs end the span
    exactly once and settle the returned promise the same way. *)
Lemma withSpan_pending_once name fn attrs w p w2 (rejected : bool) arg :
  fn (span_opened name attrs w) = (Normal (VPromise p), w2) →
  heap w2 !! p = Some (Pending []) →
  queue w2 = [] →
  end_count (next_span w) (log w2) = 0 →
  (if rejected then readable arg else plain arg) →
  let span := next_span w in
  let q := S (length (heap w2)) in
  let r := withSpan name fn attrs w in
  let w' := run_jobs 2 (settle_promise rejected p arg (snd r)) in
  fst r = Normal (VPromise q) ∧
  heap (snd r) !! q = Some (Pending []) ∧
  end_count span (log (snd r)) = 0 ∧
  log w' = log w2 ++ (if rejected then ended_error span (message_of arg) arg
                      else ended_ok span) ∧
  end_count span (log w') = 1 ∧
  heap w' !! q = Some (if rejected then Rejected arg else Fulfilled arg) ∧
  queue w' = [].
Proof.
  intros Hfn Hp Hq Hend Harg span q r w'. subst w' r q span.
  rewrite (withSpan_attaches_pending _ _ _ _ _ _ _ Hfn Hp). cbn [fst snd log heap].
  rewrite Hq.
  destruct (attached_settles (next_span w) p (heap w2) (log w2) (next_span w2)
              rejected arg Hp Harg) as (Hl & _ & Hh & Hqueue & _).
  rewrite Hl, Hh, Hqueue, attached_lookup_catch, end_count_app, Hend.
  repeat split; try done.
  destruct rejected; [apply end_count_ended_error | apply end_count_ended_ok].
Qed.

(** ** The chain among other promise activity *)

Lemma span_events_app span l l' :
  span_events span (l ++ l') = span_events span l ++ span_events span l'.
Proof. apply filter_app. Qed.

Lemma span_events_others span evs :
  Forall (λ ev, event_span ev ≠ span) evs → span_events span evs = [].
Proof.
  unfold span_events. induction 1 as [|ev evs Hev _ IH]; [done|].
  by rewrite filter_cons_False.
Qed.

Lemma span_events_other span ev :
  event_span ev ≠ span → span_events span [ev] = [].
Proof. intros H. apply span_events_others. by apply Forall_singleton. Qed.

Lemma end_count_span_events span l :
  end_count span (span_events span l) = end_count span l.
Proof.
  unfold end_count, span_events. induction l as [|ev l IH]; [done|].
  rewrite !filter_cons. destruct (decide (event_span ev = span)) as [He|He].
  - rewrite filter_cons. destruct (decide (is_end_of span ev = true)); simpl; by rewrite IH.
  - rewrite decide_False; [done|].
    destruct ev; simpl in *; try done. by rewrite bool_decide_eq_false_2.
Qed.

Lemma span_status_span_events span l :
  span_status span (span_events span l) = span_status span l.
Proof.
  unfold span_events. induction l as [|ev l IH]; [done|].
  rewrite filter_cons. destruct (decide (event_span ev = span)) as [He|He]; simpl.
  - by rewrite IH.
  - rewrite IH. destruct (span_status span l); [done|].
    destruct ev; simpl in *; try done. by rewrite decide_False.
Qed.

Lemma span_exceptions_span_events span l :
  span_exceptions span (span_events span l) = span_exceptions span l.
Proof.
  unfold span_events. induction l as [|ev l IH]; [done|].
  rewrite filter_cons. destruct (decide (event_span ev = span)) as [He|He]; simpl.
  - destruct ev; simpl in *; try done. by rewrite IH.
  - destruct ev; simpl in *; try done. by rewrite decide_False.
Qed.

Lemma span_events_ended_ok span : span_events span (ended_ok span) = ended_ok span.
Proof. unfold span_events, ended_ok. by rewrite !filter_cons_True. Qed.

Lemma span_events_rejection span e :
  span_events span (rejection_events span e) = rejection_events span e.
Proof.
  unfold span_events, rejection_events, ended_error.
  destruct e; try done; by rewrite !filter_cons_True.
Qed.

(** The [.catch] callback as a job, for any reason. *)
Lemma run_job_catch span rejected e target w :
  run_job (JReact (HSpanErr span) rejected e target) w =
  reject_promise target (passed_on e) (set_log (λ l, l ++ rejection_events span e) w).
Proof.
  unfold run_job, run_handler, withSpan_onRejected. destruct w as [l n h q].
  destruct e; run_calls; unfold rejection_events, ended_error;
    by rewrite <- ?app_assoc, ?app_nil_r.
Qed.

(** Jobs are only ever added at the back of the queue. *)
Lemma settle_promise_queue rejected x arg w :
  ∃ extra, queue (settle_promise rejected x arg w) = queue w ++ extra.
Proof.
  unfold settle_promise. destruct (heap w !! x) as [[rs| |]|];
    first [by eexists | exists []; by rewrite app_nil_r].
Qed.

Lemma resolve_promise_queue x v w :
  ∃ extra, queue (resolve_promise x v w) = queue w ++ extra.
Proof.
  destruct v; try apply settle_promise_queue.
  - exists []. by rewrite app_nil_r.
  - simpl. case_decide; [apply settle_promise_queue|by eexists].
Qed.

Lemma promise_then_queue x h1 h2 w :
  ∃ extra, queue (snd (promise_then x h1 h2 w)) = queue w ++ extra.
Proof.
  unfold promise_then. cbn [snd]. destruct (heap w !! x) as [[rs| |]|];
    first [by eexists | exists []; by rewrite app_nil_r].
Qed.

Lemma run_job_queue j w : ∃ extra, queue (run_job j w) = queue w ++ extra.
Proof.
  destruct j as [h rejected arg t|x t]; [|apply promise_then_queue].
  destruct h as [|s|s|t'|t'].
  - rewrite run_job_default. destruct rejected;
      [apply settle_promise_queue | apply resolve_promise_queue].
  - rewrite run_job_onFulfilled.
    destruct (resolve_promise_queue t arg (set_log (λ l, l ++ ended_ok s) w)) as [e He].
    by exists e.
  - rewrite run_job_catch.
    destruct (settle_promise_queue true t (passed_on arg)
                (set_log (λ l, l ++ rejection_events s arg) w)) as [e He].
    by exists e.
  - unfold run_job, run_handler.
    destruct (resolve_promise_queue t VUndefined (resolve_promise t' arg w)) as [e2 ->].
    destruct (resolve_promise_queue t' arg w) as [e1 ->].
    exists (e1 ++ e2). by rewrite app_assoc.
  - unfold run_job, run_handler.
    destruct (resolve_promise_queue t VUndefined (reject_promise t' arg w)) as [e2 ->].
    destruct (settle_promise_queue true t' arg w) as [e1 He1].
    unfold reject_promise. rewrite He1.
    exists (e1 ++ e2). by rewrite app_assoc.
Qed.

(** A pending promise is not a settled one. *)
Ltac absurd_settled :=
  match goal with
  | H1 : ?h !! ?y = Some (Pending _), H2 : ?h !! ?y = Some (settled ?b _) |- _ =>
      exfalso; rewrite H1 in H2; by destruct b
  | H1 : ?h !! ?y = Some (Pending _), H2 : ?h !! ?y = Some (if ?b then _ else _) |- _ =>
      exfalso; rewrite H1 in H2; by destruct b
  end.

Section Chain.

Variables (span p q1 q2 : nat) (before : list event).
Hypothesis source_then : p ≠ q1.
Hypothesis source_catch : p ≠ q2.
Hypothesis then_catch : q1 ≠ q2.

Local Abbreviation hclean := (hclean span q1 q2).
Local Abbreviation rclean := (rclean span q1 q2).
Local Abbreviation jclean := (jclean span q1 q2).
Local Abbreviation base := (base span p q1 q2).
Local Abbreviation phase := (phase span p q1 q2 before).
Local Abbreviation chain := (chain span p q1 q2 before).
Local Abbreviation then_reaction := (then_reaction span q1).
Local Abbreviation catch_reaction := (catch_reaction span q2).
Local Abbreviation among_reactions := (among_reactions span q1 q2).
Local Abbreviation among_jobs := (among_jobs span q1 q2).
Local Abbreviation behind := (behind span q1 q2).

Lemma rclean_job rejected arg r : rclean r → jclean (reaction_job rejected arg r).
Proof. intros (? & ? & ? & ?). unfold reaction_job. simpl. by destruct rejected. Qed.

Lemma rclean_jobs rejected arg rs :
  Forall rclean rs → Forall jclean (map (reaction_job rejected arg) rs).
Proof. intros H. apply Forall_fmap. eapply Forall_impl; [done|]. apply rclean_job. Qed.

Lemma among_reactions_snoc r rs r' :
  among_reactions r rs → rclean r' → among_reactions r (rs ++ [r']).
Proof.
  intros (a & c & -> & Ha & Hc) Hr'. exists a, (c ++ [r']).
  rewrite <- app_assoc. split; [done|]. split; [done|].
  apply Forall_app. split; [done|]. by apply Forall_singleton.
Qed.

Lemma among_jobs_app j a js js' :
  among_jobs j a js → Forall jclean js' → among_jobs j a (js ++ js').
Proof.
  intros (c & -> & Ha & Hc) H'. exists (c ++ js').
  rewrite <- app_assoc. split; [done|]. split; [done|].
  by apply Forall_app.
Qed.

(** The phase looks at the heap, the queue and the events of the span. *)
Lemma phase_transport w w' :
  heap w' = heap w → queue w' = queue w →
  span_events span (log w') = span_events span (log w) →
  phase w → phase w'.
Proof.
  intros Hh Hq Hl [].
  - eapply Waiting; rewrite ?Hh, ?Hq, ?Hl; eauto.
  - eapply SourceSettled; rewrite ?Hh, ?Hq, ?Hl; eauto.
  - eapply ThenSettled; rewrite ?Hh, ?Hq, ?Hl; eauto.
  - eapply Done; rewrite ?Hh, ?Hq, ?Hl; eauto.
Qed.

Lemma base_transport w w' :
  heap w' = heap w → (next_span w ≤ next_span w')%nat → base w → base w'.
Proof.
  intros Hh Hn [? ? ? ?]. split; rewrite ?Hh; try done. lia.
Qed.

Lemma chain_emits evs w :
  Forall (λ ev, event_span ev ≠ span) evs →
  chain w → chain (set_log (λ l, l ++ evs) w).
Proof.
  intros Hevs [Hb Hp]. split.
  - apply (base_transport w); [done| |done]. simpl. lia.
  - apply (phase_transport w); [done|done| |done]. simpl.
    rewrite span_events_app, (span_events_others _ evs) by done.
    by rewrite app_nil_r.
Qed.

Lemma chain_emit ev w :
  event_span ev ≠ span → chain w → chain (snd (emit ev w)).
Proof. intros Hev. apply (chain_emits [ev]). by apply Forall_singleton. Qed.

Lemma chain_startSpan name w : chain w → chain (snd (tracer_startSpan name w)).
Proof.
  intros [Hb Hp]. split.
  - apply (base_transport w); [done| |done]. simpl. lia.
  - apply (phase_transport w); [done|done| |done]. simpl.
    rewrite span_events_app, span_events_other, app_nil_r; [done|].
    simpl. destruct Hb. lia.
Qed.

Lemma chain_enqueue js w w' :
  log w' = log w → next_span w' = next_span w → heap w' = heap w →
  queue w' = queue w ++ js → Forall jclean js →
  chain w → chain w'.
Proof.
  intros Hl Hn Hh Hq Hjs [Hb Hp]. split.
  - apply (base_transport w); [done|lia|done].
  - destruct Hp.
    + eapply Waiting; rewrite ?Hh, ?Hq, ?Hl; eauto. by apply Forall_app.
    + eapply SourceSettled; rewrite ?Hh, ?Hq, ?Hl; eauto using among_jobs_app.
    + eapply ThenSettled; rewrite ?Hh, ?Hq, ?Hl; eauto using among_jobs_app.
    + eapply Done; rewrite ?Hh, ?Hq, ?Hl; eauto. by apply Forall_app.
Qed.

Lemma chain_alloc w w' :
  log w' = log w → next_span w' = next_span w → queue w' = queue w →
  heap w' = heap w ++ [Pending []] →
  chain w → chain w'.
Proof.
  intros Hl Hn Hq Hh [Hb Hp]. split.
  - destruct Hb as [? ? ? Ho]. split; rewrite ?Hh, ?Hn, ?length_app; simpl; try lia.
    intros x rs Hx ? ?. apply lookup_app_Some in Hx as [Hx|[_ Hx]]; [by eapply Ho|].
    destruct (x - length (heap w)) as [|n]; [|by destruct n].
    simpl in Hx. by simplify_eq.
  - destruct Hp.
    + eapply Waiting; rewrite ?Hh, ?Hq, ?Hl; eauto using lookup_app_l_Some.
    + eapply SourceSettled; rewrite ?Hh, ?Hq, ?Hl; eauto using lookup_app_l_Some.
    + eapply ThenSettled; rewrite ?Hh, ?Hq, ?Hl; eauto using lookup_app_l_Some.
    + eapply Done; rewrite ?Hh, ?Hq, ?Hl; eauto using lookup_app_l_Some.
Qed.

Lemma chain_attach x rs r w w' :
  log w' = log w → next_span w' = next_span w → queue w' = queue w →
  heap w !! x = Some (Pending rs) → rclean r →
  heap w' = <[x := Pending (rs ++ [r])]> (heap w) →
  chain w → chain w'.
Proof.
  intros Hl Hn Hq Hx Hr Hh [Hb Hp].
  pose proof (lookup_lt_Some _ _ _ Hx) as Hlt.
  assert (Hsame : heap w' !! x = Some (Pending (rs ++ [r])))
    by (rewrite Hh; by apply list_lookup_insert_eq).
  assert (Hother : ∀ y, x ≠ y → heap w' !! y = heap w !! y)
    by (intros y ?; rewrite Hh; by apply list_lookup_insert_ne).
  split.
  - destruct Hb as [? ? ? Ho].
    split; [by rewrite Hn|by rewrite Hh, length_insert|by rewrite Hh, length_insert|].
    intros y rs' Hy ? ?. destruct (decide (x = y)) as [<-|Hne].
    + rewrite Hsame in Hy. simplify_eq. apply Forall_app. split; [by eapply Ho|].
      by apply Forall_singleton.
    + rewrite Hother in Hy by done. by eapply Ho.
  - assert (x = p ∨ x = q1 ∨ x = q2 ∨ (x ≠ p ∧ x ≠ q1 ∧ x ≠ q2)) as Hcases
      by (destruct (decide (x = p)), (decide (x = q1)), (decide (x = q2)); tauto).
    destruct Hp;
      destruct Hcases as [->|[->|[->|(? & ? & ?)]]];
      try absurd_settled; simplify_eq;
      [ eapply Waiting | eapply Waiting | eapply Waiting | eapply Waiting
      | eapply SourceSettled | eapply SourceSettled | eapply SourceSettled
      | eapply ThenSettled | eapply ThenSettled
      | eapply Done ];
      rewrite ?Hl, ?Hq, ?Hsame, ?Hother by done;
      eauto using among_reactions_snoc.
Qed.

Lemma chain_settle rejected x arg w :
  x ≠ q1 → x ≠ q2 → (rejected = false → plain arg) →
  chain w → chain (settle_promise rejected x arg w).
Proof.
  intros Hx1 Hx2 Harg [Hb Hp]. unfold settle_promise.
  destruct (heap w !! x) as [[rs| |]|] eqn:Hx; try done.
  pose proof (lookup_lt_Some _ _ _ Hx) as Hlt.
  set (w' := mkWorld _ _ _ _).
  assert (Hsame : heap w' !! x = Some (settled rejected arg))
    by (by apply list_lookup_insert_eq).
  assert (Hother : ∀ y, x ≠ y → heap w' !! y = heap w !! y)
    by (intros y ?; by apply list_lookup_insert_ne).
  split.
  - destruct Hb as [? ? ? Ho].
    split; [done|by simpl; rewrite length_insert|by simpl; rewrite length_insert|].
    intros y rs' Hy ? ?. destruct (decide (x = y)) as [<-|Hne].
    + rewrite Hsame in Hy. by destruct rejected.
    + rewrite Hother in Hy by done. by eapply Ho.
  - destruct (decide (x = p)) as [->|Hxp].
    + destruct Hp; try absurd_settled. simplify_eq.
      destruct H0 as (a & c & -> & Ha & Hc).
      eapply SourceSettled; rewrite ?Hother by done; eauto.
      exists (map (reaction_job rejected arg) c). simpl.
      rewrite map_app, app_assoc. split; [done|].
      split; [apply Forall_app; split; [done|by apply rclean_jobs]|by apply rclean_jobs].
    + assert (Forall jclean (map (reaction_job rejected arg) rs)) as Hjs
        by (apply rclean_jobs; destruct Hb as [? ? ? Ho]; by eapply Ho).
      destruct Hp;
        [ eapply Waiting | eapply SourceSettled | eapply ThenSettled | eapply Done ];
        rewrite ?Hother by done; eauto;
        simpl; first [by apply Forall_app | by eapply among_jobs_app].
Qed.

Lemma chain_then x h1 h2 w :
  hclean h1 → hclean h2 → chain w → chain (snd (promise_then x h1 h2 w)).
Proof.
  intros Hh1 Hh2 Hw. unfold promise_then. cbn [snd].
  set (r := Reaction h1 h2 (length (heap w))).
  assert (rclean r) as Hr.
  { destruct Hw as [[? ? ? ?] _]. repeat split; simpl; try done; lia. }
  set (w' := set_heap (λ h, h ++ [Pending []]) w).
  assert (chain w') as Hw' by (by apply (chain_alloc w)).
  destruct (heap w !! x) as [[rs|v|e]|] eqn:Hx; [| | |done].
  - apply (chain_attach x rs r w'); try done.
    simpl. by apply lookup_app_l_Some.
  - apply (chain_enqueue [reaction_job false v r] w'); try done.
    apply Forall_singleton. by apply rclean_job.
  - apply (chain_enqueue [reaction_job true e r] w'); try done.
    apply Forall_singleton. by apply rclean_job.
Qed.

Lemma chain_new_promise w : chain w → chain (snd (new_promise w)).
Proof. intros Hw. by apply (chain_alloc w). Qed.

Lemma chain_resolve x v w :
  x ≠ q1 → x ≠ q2 → chain w → chain (resolve_promise x v w).
Proof.
  intros Hx1 Hx2 Hw.
  destruct v; try (by apply chain_settle); [done|].
  simpl. case_decide.
  - by apply chain_settle.
  - apply (chain_enqueue [JAdopt p0 x] w); try done.
    by apply Forall_singleton.
Qed.

(** A job of the rest of the program. *)
Lemma chain_job j w : jclean j → chain w → chain (run_job j w).
Proof.
  intros Hj Hw. destruct j as [h rejected arg t|x t]; simpl in Hj.
  - destruct Hj as (Hh & Ht1 & Ht2). destruct h as [|s|s|t'|t']; simpl in Hh.
    + rewrite run_job_default. destruct rejected;
        [by apply chain_settle | by apply chain_resolve].
    + rewrite run_job_onFulfilled. apply chain_resolve; [done..|].
      apply chain_emits; [|done]. by repeat constructor.
    + rewrite run_job_catch. apply chain_settle; [done..|].
      apply chain_emits; [|done].
      unfold rejection_events, ended_error. destruct arg; by repeat constructor.
    + destruct Hh. unfold run_job, run_handler.
      apply chain_resolve; [done..|]. by apply chain_resolve.
    + destruct Hh. unfold run_job, run_handler.
      apply chain_resolve; [done..|]. by apply chain_settle.
  - destruct Hj. by apply chain_then.
Qed.

Lemma then_job_dirty rejected arg : ¬ jclean (reaction_job rejected arg then_reaction).
Proof. unfold reaction_job. simpl. intros (_ & Hq & _). by apply Hq. Qed.

Lemma catch_job_dirty rejected arg : ¬ jclean (reaction_job rejected arg catch_reaction).
Proof. unfold reaction_job. simpl. intros (_ & _ & Hq). by apply Hq. Qed.

(** The job at the head of the queue is clean, or it is the job of the chain
    with no job before it. *)
Lemma among_jobs_head tok a j js :
  ¬ jclean tok → among_jobs tok a (j :: js) →
  (a = [] ∧ j = tok ∧ Forall jclean js) ∨
  (∃ a', a = j :: a' ∧ jclean j ∧ among_jobs tok a' js).
Proof.
  intros Htok (c & Hq & Ha & Hc). destruct a as [|j' a']; simpl in Hq; simplify_eq.
  - by left.
  - right. apply Forall_cons in Ha as [? ?]. exists a'. repeat split; try done. by exists c.
Qed.

Lemma chain_pop j js w :
  queue w = j :: js → jclean j → chain w → chain (set_queue (λ _, js) w).
Proof.
  intros Hq Hj [Hb Hp]. split; [by apply (base_transport w)|].
  destruct Hp as [? ? ? ? ? ? ? ? Hc|? ? ? ? ? ? ? Hjs|? ? ? ? ? ? ? Hjs|? ? ? ? ? ? Hc].
  - rewrite Hq in Hc. apply Forall_cons in Hc as [_ ?]. by eapply Waiting.
  - rewrite Hq in Hjs.
    apply among_jobs_head in Hjs as [(_ & -> & _)|(a' & -> & _ & ?)];
      [by apply then_job_dirty in Hj| |apply then_job_dirty].
    by eapply SourceSettled.
  - rewrite Hq in Hjs.
    apply among_jobs_head in Hjs as [(_ & -> & _)|(a' & -> & _ & ?)];
      [by apply catch_job_dirty in Hj| |apply catch_job_dirty].
    by eapply ThenSettled.
  - rewrite Hq in Hc. apply Forall_cons in Hc as [_ ?]. by eapply Done.
Qed.

Lemma base_settle x rejected arg l n q w :
  (next_span w ≤ n)%nat → base w →
  base (mkWorld l n (<[x := settled rejected arg]> (heap w)) q).
Proof.
  intros Hn [? ? ? Ho]. split; simpl; rewrite ?length_insert; try done; [lia|].
  intros y rs Hy ? ?. rewrite list_lookup_insert in Hy. case_decide.
  - by destruct rejected.
  - by eapply Ho.
Qed.

(** The chain's first job: the [.then] callback, or the pass-through of a
    rejection, settles [q1] and queues the second job. *)
Lemma chain_then_job rejected arg c rs1 rs2 w :
  base w →
  heap w !! p = Some (settled rejected arg) → (rejected = false → plain arg) →
  Forall jclean c →
  heap w !! q1 = Some (Pending rs1) → among_reactions catch_reaction rs1 →
  heap w !! q2 = Some (Pending rs2) →
  span_events span (log w) = before →
  let w' := run_job (reaction_job rejected arg then_reaction) (set_queue (λ _, c) w) in
  chain w' ∧ ∃ a, among_jobs (reaction_job rejected arg catch_reaction) a (queue w').
Proof.
  intros Hb Hp Harg Hc Hq1 (a1 & c1 & -> & Ha1 & Hc1) Hq2 Hl.
  pose proof (lookup_lt_Some _ _ _ Hq1) as Hlt.
  set (w0 := set_queue (λ _, c) w).
  assert (∃ l, (rejected = false → l = log w ++ ended_ok span) ∧
               (rejected = true → l = log w) ∧
               run_job (reaction_job rejected arg then_reaction) w0
               = mkWorld l (next_span w) (<[q1 := settled rejected arg]> (heap w))
                   (c ++ map (reaction_job rejected arg) (a1 ++ catch_reaction :: c1)))
    as (l & Hl0 & Hl1 & ->).
  { unfold reaction_job at 1. cbn [then_reaction on_fulfilled on_rejected derived].
    destruct rejected.
    - exists (log w). split; [done|]. split; [done|].
      rewrite run_job_default. unfold reject_promise.
      by rewrite (settle_promise_pending true q1 arg w0 _ Hq1).
    - exists (log w ++ ended_ok span). split; [done|]. split; [done|].
      rewrite run_job_onFulfilled, resolve_promise_plain by auto.
      unfold fulfill_promise.
      by rewrite (settle_promise_pending false q1 arg (set_log _ w0) _ Hq1). }
  assert (among_jobs (reaction_job rejected arg catch_reaction)
            (c ++ map (reaction_job rejected arg) a1)
            (c ++ map (reaction_job rejected arg) (a1 ++ catch_reaction :: c1))) as Hjobs.
  { exists (map (reaction_job rejected arg) c1).
    rewrite map_app, app_assoc. split; [done|].
    split; [apply Forall_app; split; [done|]|]; by apply rclean_jobs. }
  cbn zeta. split; [|by eexists].
  split; [by apply base_settle|].
  eapply (ThenSettled _ _ _ _ _ _ rejected arg (c ++ map (reaction_job rejected arg) a1));
    cbn [heap queue log]; try done.
  - by rewrite list_lookup_insert_ne.
  - by apply list_lookup_insert_eq.
  - by rewrite list_lookup_insert_ne.
  - destruct rejected.
    + by rewrite Hl1, app_nil_r.
    + by rewrite Hl0, span_events_app, span_events_ended_ok, Hl.
Qed.

(** The chain's second job: the [.catch] callback, or the pass-through of
    the value, settles [q2]. *)
Lemma chain_catch_job rejected arg c rs2 w :
  base w →
  heap w !! p = Some (settled rejected arg) → (rejected = false → plain arg) →
  heap w !! q1 = Some (settled rejected arg) →
  Forall jclean c →
  heap w !! q2 = Some (Pending rs2) →
  span_events span (log w) = before ++ (if rejected then [] else ended_ok span) →
  let w' := run_job (reaction_job rejected arg catch_reaction) (set_queue (λ _, c) w) in
  chain w' ∧ heap w' !! q2 = Some (outcome rejected arg).
Proof.
  intros Hb Hp Harg Hq1 Hc Hq2 Hl.
  pose proof (lookup_lt_Some _ _ _ Hq2) as Hlt.
  assert (Forall rclean rs2) as Hrs2 by (destruct Hb as [? ? ? Ho]; by eapply Ho).
  set (w0 := set_queue (λ _, c) w).
  assert (run_job (reaction_job rejected arg catch_reaction) w0
          = mkWorld (log w ++ if rejected then rejection_events span arg else [])
                    (next_span w)
                    (<[q2 := settled rejected (if rejected then passed_on arg else arg)]>
                       (heap w))
                    (c ++ map (reaction_job rejected
                                 (if rejected then passed_on arg else arg)) rs2))
    as ->.
  { unfold reaction_job at 1. cbn [catch_reaction on_fulfilled on_rejected derived].
    destruct rejected.
    - rewrite run_job_catch. unfold reject_promise.
      by rewrite (settle_promise_pending true q2 _ (set_log _ w0) _ Hq2).
    - rewrite run_job_default, resolve_promise_plain by auto.
      unfold fulfill_promise.
      rewrite (settle_promise_pending false q2 arg w0 _ Hq2).
      simpl. by rewrite app_nil_r. }
  cbn zeta. split;
    [|cbn [heap]; rewrite list_lookup_insert_eq by done; by destruct rejected].
  split; [by apply base_settle|].
  eapply (Done _ _ _ _ _ _ rejected arg); cbn [heap queue log]; try done.
  - by rewrite list_lookup_insert_ne.
  - by rewrite list_lookup_insert_ne.
  - rewrite list_lookup_insert_eq by done. by destruct rejected.
  - apply Forall_app. split; [done|]. by apply rclean_jobs.
  - rewrite span_events_app, Hl. destruct rejected.
    + by rewrite span_events_rejection, app_nil_r.
    + by rewrite app_nil_r.
Qed.

(** The next microtask, whichever it is. *)
Lemma chain_run_next_job w : chain w → chain (run_next_job w).
Proof.
  intros Hw. unfold run_next_job. destruct (queue w) as [|j js] eqn:Hq; [done|].
  assert (jclean j → chain (run_job j (set_queue (λ _, js) w))) as Hclean
    by (intros Hj; apply chain_job; [done|]; by apply chain_pop with j).
  destruct Hw as [Hb [? ? ? ? ? ? ? ? Hc|? ? ? ? ? ? ? Hjs|? ? ? ? ? ? ? Hjs|? ? ? ? ? ? Hc]].
  - rewrite Hq in Hc. apply Forall_cons in Hc as [? _]. auto.
  - rewrite Hq in Hjs.
    apply among_jobs_head in Hjs as [(_ & -> & ?)|(a' & _ & ? & _)];
      [|auto|apply then_job_dirty].
    by eapply chain_then_job.
  - rewrite Hq in Hjs.
    apply among_jobs_head in Hjs as [(_ & -> & ?)|(a' & _ & ? & _)];
      [|auto|apply catch_job_dirty].
    by eapply chain_catch_job.
  - rewrite Hq in Hc. apply Forall_cons in Hc as [? _]. auto.
Qed.

(** Every step the rest of the program can take keeps the chain. *)
Lemma chain_perform a w :
  permitted span q1 q2 a → chain w → chain (perform a w).
Proof.
  intros Ha Hw. destruct a; simpl in *.
  - by apply chain_run_next_job.
  - destruct Ha. by apply chain_resolve.
  - destruct Ha. by apply chain_settle.
  - destruct Ha. by apply chain_then.
  - by apply chain_new_promise.
  - by apply chain_startSpan.
  - by apply chain_emit.
Qed.

Lemma chain_perform_all acts w :
  Forall (permitted span q1 q2) acts → chain w → chain (perform_all acts w).
Proof.
  intros Hacts. revert w. induction Hacts as [|a acts Ha _ IH]; intros w Hw; [done|].
  simpl. apply IH. by apply chain_perform.
Qed.

(** ** Progress of the chain *)

Lemma reaction_job_inj rejected arg rejected' arg' r :
  reaction_job rejected arg r = reaction_job rejected' arg' r →
  rejected = rejected' ∧ arg = arg'.
Proof. unfold reaction_job. by intros [= _ -> ->]. Qed.

Lemma settled_inj rejected arg rejected' arg' :
  settled rejected arg = settled rejected' arg' → rejected = rejected' ∧ arg = arg'.
Proof. by destruct rejected, rejected'; intros [= ->]. Qed.

Lemma run_next_job_cons j js w :
  queue w = j :: js → run_next_job w = run_job j (set_queue (λ _, js) w).
Proof. intros H. unfold run_next_job. by rewrite H. Qed.

Lemma run_jobs_add n m w : run_jobs (n + m) w = run_jobs m (run_jobs n w).
Proof. revert w. induction n as [|n IH]; intros w; simpl; [done|]. apply IH. Qed.

(** With the first job of the chain at the head of the queue, the chain is
    where that job can run. *)
Lemma chain_then_head rejected arg c w :
  chain w → queue w = reaction_job rejected arg then_reaction :: c →
  heap w !! p = Some (settled rejected arg) ∧ (rejected = false → plain arg) ∧
  Forall jclean c ∧
  ∃ rs1 rs2,
    heap w !! q1 = Some (Pending rs1) ∧ among_reactions catch_reaction rs1 ∧
    heap w !! q2 = Some (Pending rs2) ∧ span_events span (log w) = before.
Proof.
  intros [_ [? ? ? ? ? ? ? ? Hc|? ? ? ? ? ? ? Hjs|? ? ? ? ? ? ? Hjs|? ? ? ? ? ? Hc]] Hq.
  - rewrite Hq in Hc. apply Forall_cons in Hc as [Hc _]. by apply then_job_dirty in Hc.
  - rewrite Hq in Hjs.
    apply among_jobs_head in Hjs as [(_ & Htok & ?)|(a' & _ & Hc & _)];
      [|by apply then_job_dirty in Hc|apply then_job_dirty].
    apply reaction_job_inj in Htok as [-> ->]. eauto 10.
  - rewrite Hq in Hjs.
    apply among_jobs_head in Hjs as [(_ & Htok & ?)|(a' & _ & Hc & _)];
      [|by apply then_job_dirty in Hc|apply catch_job_dirty].
    unfold reaction_job in Htok. by simplify_eq/=.
  - rewrite Hq in Hc. apply Forall_cons in Hc as [Hc _]. by apply then_job_dirty in Hc.
Qed.

Lemma chain_catch_head rejected arg c w :
  chain w → queue w = reaction_job rejected arg catch_reaction :: c →
  heap w !! p = Some (settled rejected arg) ∧ (rejected = false → plain arg) ∧
  heap w !! q1 = Some (settled rejected arg) ∧
  Forall jclean c ∧
  ∃ rs2,
    heap w !! q2 = Some (Pending rs2) ∧
    span_events span (log w) = before ++ (if rejected then [] else ended_ok span).
Proof.
  intros [_ [? ? ? ? ? ? ? ? Hc|? ? ? ? ? ? ? Hjs|? ? ? ? ? ? ? Hjs|? ? ? ? ? ? Hc]] Hq.
  - rewrite Hq in Hc. apply Forall_cons in Hc as [Hc _]. by apply catch_job_dirty in Hc.
  - rewrite Hq in Hjs.
    apply among_jobs_head in Hjs as [(_ & Htok & ?)|(a' & _ & Hc & _)];
      [|by apply catch_job_dirty in Hc|apply then_job_dirty].
    unfold reaction_job in Htok. by simplify_eq/=.
  - rewrite Hq in Hjs.
    apply among_jobs_head in Hjs as [(_ & Htok & ?)|(a' & _ & Hc & _)];
      [|by apply catch_job_dirty in Hc|apply catch_job_dirty].
    apply reaction_job_inj in Htok as [-> ->]. eauto 10.
  - rewrite Hq in Hc. apply Forall_cons in Hc as [Hc _]. by apply catch_job_dirty in Hc.
Qed.

(** The jobs ahead of a job run, and leave it at the head. *)
Lemma chain_reach tok a w :
  chain w → behind tok a (queue w) →
  chain (run_jobs (length a) w) ∧ ∃ c, queue (run_jobs (length a) w) = tok :: c.
Proof.
  revert w. induction a as [|j a IH]; intros w Hw (c & Hq & Ha).
  - simpl. eauto.
  - apply Forall_cons in Ha as [_ Ha]. simpl. apply IH.
    + by apply chain_run_next_job.
    + unfold run_next_job. rewrite Hq. simpl.
      destruct (run_job_queue j (set_queue (λ _, a ++ tok :: c) w)) as [extra ->].
      exists (c ++ extra). simpl. by rewrite <- app_assoc.
Qed.

Lemma chain_progress_catch rejected arg a w :
  chain w → among_jobs (reaction_job rejected arg catch_reaction) a (queue w) →
  ∃ n, chain (run_jobs n w) ∧ heap (run_jobs n w) !! q2 = Some (outcome rejected arg).
Proof.
  intros Hw (c & Hq & Ha & _).
  destruct (chain_reach (reaction_job rejected arg catch_reaction) a w Hw)
    as (Hw1 & c1 & Hq1); [by exists c|].
  destruct (chain_catch_head _ _ _ _ Hw1 Hq1) as (? & ? & ? & ? & ? & ? & ?).
  exists (length a + 1). rewrite run_jobs_add. simpl.
  rewrite (run_next_job_cons _ _ _ Hq1).
  eapply chain_catch_job; eauto. by destruct Hw1.
Qed.

Lemma chain_progress_then rejected arg a w :
  chain w → among_jobs (reaction_job rejected arg then_reaction) a (queue w) →
  ∃ n, chain (run_jobs n w) ∧ heap (run_jobs n w) !! q2 = Some (outcome rejected arg).
Proof.
  intros Hw (c & Hq & Ha & _).
  destruct (chain_reach (reaction_job rejected arg then_reaction) a w Hw)
    as (Hw1 & c1 & Hq1); [by exists c|].
  destruct (chain_then_head _ _ _ _ Hw1 Hq1)
    as (? & ? & ? & rs1 & rs2 & ? & ? & ? & ?).
  destruct (chain_then_job rejected arg c1 rs1 rs2 (run_jobs (length a) w))
    as (Hw2 & a2 & Hq2); eauto; [by destruct Hw1|].
  destruct (chain_progress_catch _ _ _ _ Hw2 Hq2) as (n & Hw3 & Hout).
  exists (length a + (1 + n)). rewrite run_jobs_add. simpl.
  by rewrite (run_next_job_cons _ _ _ Hq1).
Qed.

(** Once the promise of the operation has settled, running the queue settles
    the promise returned to the caller. *)
Lemma chain_settles rejected arg w :
  chain w → heap w !! p = Some (settled rejected arg) →
  ∃ n, chain (run_jobs n w) ∧ heap (run_jobs n w) !! q2 = Some (outcome rejected arg).
Proof.
  intros Hw Hp.
  destruct (proj2 Hw) as [? ? ? Hp'|b' arg' a ? ? Hp' ? Hjs|b' arg' a ? Hp' ? ? Hjs
                         |b' arg' Hp' ? ? Hout].
  - rewrite Hp in Hp'. by destruct rejected.
  - rewrite Hp in Hp'. injection Hp' as [-> ->]%settled_inj.
    by eapply chain_progress_then.
  - rewrite Hp in Hp'. injection Hp' as [-> ->]%settled_inj.
    by eapply chain_progress_catch.
  - rewrite Hp in Hp'. injection Hp' as [-> ->]%settled_inj.
    by exists 0.
Qed.

(** ** What the chain says about the span *)

Lemma chain_events w :
  chain w →
  ∃ evs, span_events span (log w) = before ++ evs ∧
         (evs = [] ∨ evs = ended_ok span ∨ ∃ m e, evs = ended_error span m e).
Proof.
  intros [_ [? ? ? ? ? ? ? ? ? Hl|? ? ? ? ? ? ? ? ? ? ? Hl|b arg ? ? ? ? ? ? ? Hl
            |b arg ? ? ? ? ? Hl]].
  - exists []. rewrite app_nil_r. auto.
  - exists []. rewrite app_nil_r. auto.
  - eexists. split; [done|]. destruct b; auto.
  - eexists. split; [done|]. destruct b; [|auto].
    unfold rejection_events. destruct arg; eauto.
Qed.

(** The span is ended at most once more than it was. *)
Lemma chain_ended_at_most_once w :
  chain w → (end_count span (log w) ≤ end_count span before + 1)%nat.
Proof.
  intros (evs & Hl & Hevs)%chain_events.
  rewrite <- end_count_span_events, Hl, end_count_app.
  destruct Hevs as [->|[->|(m & e & ->)]].
  - unfold end_count. simpl. lia.
  - rewrite end_count_ended_ok. lia.
  - rewrite end_count_ended_error. lia.
Qed.

(** While the promise of the operation is pending, nothing has been said to
    the provider, and the returned promise is pending. *)
Lemma chain_pending w rs :
  chain w → heap w !! p = Some (Pending rs) →
  span_events span (log w) = before ∧ ∃ rs2, heap w !! q2 = Some (Pending rs2).
Proof. intros [_ []] Hp; try absurd_settled. eauto. Qed.

(** The returned promise is fulfilled only with the value of the operation's
    promise, the span ended once with status OK. *)
Lemma chain_fulfilled w v :
  chain w → heap w !! q2 = Some (Fulfilled v) →
  heap w !! p = Some (Fulfilled v) ∧
  span_events span (log w) = before ++ ended_ok span.
Proof.
  intros [_ [| | |b arg Hp ? ? Hq2 ? Hl]] Hq; try (rewrite Hq in *; done).
  rewrite Hq in Hq2. destruct b; [done|]. by simplify_eq.
Qed.

(** The returned promise is rejected only when the operation's promise is,
    with what the [.catch] callback throws for its reason. *)
Lemma chain_rejected w e' :
  chain w → heap w !! q2 = Some (Rejected e') →
  ∃ e, heap w !! p = Some (Rejected e) ∧ e' = passed_on e ∧
       span_events span (log w) = before ++ rejection_events span e.
Proof.
  intros [_ [| | |b arg Hp ? ? Hq2 ? Hl]] Hq; try (rewrite Hq in *; done).
  rewrite Hq in Hq2. destruct b; [|done]. exists arg. by simplify_eq.
Qed.

End Chain.

(** ** From [withSpan] to the chain *)

(** The heap that [withSpan] leaves when the promise [p] is already
    settled: the two derived promises, the second waiting on the first. *)
Lemma withSpan_attaches_settled name fn attrs w p w2 rejected arg :
  fn (span_opened name attrs w) = (Normal (VPromise p), w2) →
  heap w2 !! p = Some (settled rejected arg) →
  let q := length (heap w2) in
  snd (withSpan name fn attrs w) =
  mkWorld (log w2) (next_span w2)
          (heap w2 ++ [Pending [catch_reaction (next_span w) (S q)]; Pending []])
          (queue w2 ++ [reaction_job rejected arg (then_reaction (next_span w) q)]).
Proof.
  intros Hfn Hp q. rewrite (withSpan_attaches _ _ _ _ _ _ Hfn). cbn [snd].
  unfold promise_catch, promise_then. cbn [snd]. rewrite Hp.
  destruct rejected; cbn [settled set_heap set_queue log next_span heap queue];
    rewrite lookup_app_r, Nat.sub_diag by done; cbn [lookup list_lookup];
    cbv [set_heap set_queue]; cbn [log next_span heap queue];
    rewrite length_app; cbn [length app];
    rewrite insert_app_l by (rewrite length_app; simpl; lia);
    rewrite insert_app_r_alt, Nat.sub_diag by done;
    cbn [insert list_insert]; rewrite <- app_assoc;
    unfold catch_reaction, then_reaction; subst q;
    by replace (length (heap w2) + 1) with (S (length (heap w2))) by lia.
Qed.

Lemma attached_lookup_other span p rs h x :
  x ≠ p → x < length h → attached span p rs h !! x = h !! x.
Proof.
  intros Hx Hlt. unfold attached.
  rewrite list_lookup_insert_ne by lia.
  rewrite lookup_app_l by (rewrite length_insert, length_app; simpl; lia).
  rewrite list_lookup_insert_ne by done. by apply lookup_app_l.
Qed.

(** When the operation returns a native promise, in a world where nothing
    is closed over the new span, [withSpan] leaves the chain in place. *)
Lemma withSpan_chain name fn attrs w p w2 :
  fn (span_opened name attrs w) = (Normal (VPromise p), w2) →
  let span := next_span w in
  let q1 := length (heap w2) in
  let q2 := S q1 in
  p < length (heap w2) →
  span < next_span w2 →
  Forall (jclean span q1 q2) (queue w2) →
  (∀ x rs, heap w2 !! x = Some (Pending rs) → Forall (rclean span q1 q2) rs) →
  (∀ v, heap w2 !! p = Some (Fulfilled v) → plain v) →
  chain span p q1 q2 (span_events span (log w2)) (snd (withSpan name fn attrs w)).
Proof.
  intros Hfn span q1 q2 Hlt Hspan Hjobs Hheap Hplain.
  assert (∀ rejected arg, heap w2 !! p = Some (settled rejected arg) →
            (rejected = false → plain arg) →
            chain span p q1 q2 (span_events span (log w2))
                  (snd (withSpan name fn attrs w))) as Hsettled.
  { intros rejected arg Hp Harg.
    rewrite (withSpan_attaches_settled _ _ _ _ _ _ _ _ Hfn Hp). split.
    - split; cbn [next_span heap]; rewrite ?length_app; cbn [length];
        [done|subst q1; lia|subst q2 q1; lia|].
      intros x rs Hx _ Hx1. apply lookup_app_Some in Hx as [Hx|[Hge Hx]]; [by eapply Hheap|].
      destruct (x - length (heap w2)) as [|[|n]] eqn:Hn; simpl in Hx; simplify_eq.
      + subst q1. lia.
      + constructor.
    - eapply (SourceSettled _ _ _ _ _ _ rejected arg (queue w2)
                [catch_reaction span q2] []); cbn [heap queue log]; try done.
      + by apply lookup_app_l_Some.
      + exists []. split; [done|]. split; [done|constructor].
      + rewrite lookup_app_r by done. by rewrite Nat.sub_diag.
      + exists [], []. split; [done|]. split; constructor.
      + rewrite lookup_app_r by (subst q2 q1; lia).
        by replace (q2 - length (heap w2)) with 1 by (subst q2 q1; lia). }
  destruct (heap w2 !! p) as [[rs|v|e]|] eqn:Hp.
  - rewrite (withSpan_attaches_pending _ _ _ _ _ _ _ Hfn Hp). cbn [snd]. split.
    + split; cbn [next_span heap]; rewrite ?attached_length;
        [done|subst q1; lia|subst q2 q1; lia|].
      intros x rs' Hx Hxp Hx1.
      pose proof (lookup_lt_Some _ _ _ Hx) as Hx2. rewrite attached_length in Hx2.
      destruct (decide (x = q2)) as [->|Hx3].
      * subst q2 q1. rewrite attached_lookup_catch in Hx. simplify_eq. constructor.
      * rewrite attached_lookup_other in Hx by (subst q2 q1; lia). by eapply Hheap.
    + eapply (Waiting _ _ _ _ _ _ _ [catch_reaction span q2] []); cbn [heap queue log];
        try done.
      * by apply attached_lookup_source.
      * exists rs, []. split; [done|]. split; [by eapply Hheap|constructor].
      * by apply attached_lookup_then.
      * exists [], []. split; [done|]. split; constructor.
      * apply attached_lookup_catch.
  - apply (Hsettled false v); auto.
  - by apply (Hsettled true e).
  - apply lookup_ge_None in Hp. lia.
Qed.

Lemma passed_on_readable e : readable e → passed_on e = e.
Proof. by destruct e. Qed.

Lemma rejection_events_readable span e :
  readable e → rejection_events span e = ended_error span (message_of e) e.
Proof. by destruct e. Qed.

Lemma rejection_events_unreadable span e :
  unreadable e → rejection_events span e = [].
Proof. by destruct e. Qed.

(** X2: an operation that returns a native promise, in a world where nothing
    is closed over the new span and the operation has not ended it.  Whatever
    the rest of the program does next, in whatever order with the jobs of
    the chain: the span is ended at most once; while the operation's promise
    is pending nothing more is said to the provider about the span; the
    returned promise is fulfilled only with the operation's value, the
    provider then having been told status OK and end, in this order; it is
    rejected only when the operation's promise is: for a reason with a
    readable [message] with that very reason, the provider then having been
    told status ERROR with that [message], the reason as exception, and end,
    in this order; for a reason whose [message] throws when read with what
    the read throws, the provider having been told nothing; and once the
    operation's promise has settled, running the queue settles the returned
    promise. *)
Theorem withSpan_among_other_activity name fn attrs w p w2 acts :
  fn (span_opened name attrs w) = (Normal (VPromise p), w2) →
  let span := next_span w in
  let q1 := length (heap w2) in
  let q2 := S q1 in
  p < length (heap w2) →
  span < next_span w2 →
  Forall (jclean span q1 q2) (queue w2) →
  (∀ x rs, heap w2 !! x = Some (Pending rs) → Forall (rclean span q1 q2) rs) →
  (∀ v, heap w2 !! p = Some (Fulfilled v) → plain v) →
  end_count span (log w2) = 0 →
  Forall (permitted span q1 q2) acts →
  let w' := perform_all acts (snd (withSpan name fn attrs w)) in
  (end_count span (log w') ≤ 1)%nat ∧
  (∀ rs, heap w' !! p = Some (Pending rs) →
     span_events span (log w') = span_events span (log w2) ∧
     end_count span (log w') = 0 ∧ ∃ rs2, heap w' !! q2 = Some (Pending rs2)) ∧
  (∀ v, heap w' !! q2 = Some (Fulfilled v) →
     heap w' !! p = Some (Fulfilled v) ∧
     span_events span (log w')
     = span_events span (log w2) ++ [ESetStatus span OK None; EEnd span] ∧
     end_count span (log w') = 1 ∧
     span_status span (log w') = Some (OK, None)) ∧
  (∀ e', heap w' !! q2 = Some (Rejected e') →
     ∃ e, heap w' !! p = Some (Rejected e) ∧ e' = passed_on e ∧
          (readable e →
             e' = e ∧
             span_events span (log w')
             = span_events span (log w2) ++
               [ESetStatus span ERROR (Some (message_of e));
                ERecordException span e; EEnd span] ∧
             end_count span (log w') = 1 ∧
             span_status span (log w') = Some (ERROR, Some (message_of e)) ∧
             span_exceptions span (log w') = span_exceptions span (log w2) ++ [e]) ∧
          (unreadable e →
             span_events span (log w') = span_events span (log w2) ∧
             end_count span (log w') = 0)) ∧
  (∀ rejected arg, heap w' !! p = Some (settled rejected arg) →
     ∃ n, heap (run_jobs n w') !! q2 = Some (outcome rejected arg)).
Proof.
  intros Hfn span q1 q2 Hlt Hspan Hjobs Hheap Hplain Hend Hacts w'.
  assert (p ≠ q1 ∧ p ≠ q2 ∧ q1 ≠ q2) as (Hpq1 & Hpq2 & Hq) by (subst q2 q1; lia).
  assert (chain span p q1 q2 (span_events span (log w2)) w') as Hw'.
  { apply chain_perform_all; [done..|]. by apply withSpan_chain. }
  assert (end_count span (span_events span (log w2)) = 0) as Hend'
    by (by rewrite end_count_span_events).
  split; [|split; [|split; [|split]]].
  - pose proof Hw' as Hle. apply chain_ended_at_most_once in Hle; [lia|done..].
  - intros rs Hp. pose proof Hw' as Hpend.
    eapply chain_pending in Hpend as [Hl ?]; [|done..].
    split; [done|]. split; [|done]. by rewrite <- end_count_span_events, Hl.
  - intros v Hq2. pose proof Hw' as Hful.
    eapply chain_fulfilled in Hful as [? Hl]; [|done..].
    split; [done|]. split; [done|].
    rewrite <- end_count_span_events, <- span_status_span_events, Hl.
    rewrite end_count_app, Hend', end_count_ended_ok, span_status_app.
    simpl. by rewrite decide_True.
  - intros e' Hq2. pose proof Hw' as Hrej.
    eapply chain_rejected in Hrej as (e & ? & -> & Hl); [|done..].
    exists e. split; [done|]. split; [done|]. split.
    + intros Hr. rewrite rejection_events_readable in Hl by done.
      split; [by rewrite passed_on_readable|]. split; [done|].
      rewrite <- end_count_span_events, <- span_status_span_events,
        <- span_exceptions_span_events, Hl.
      rewrite end_count_app, Hend', end_count_ended_error, span_status_app,
        span_exceptions_app, span_exceptions_span_events.
      simpl. by rewrite !decide_True by done.
    + intros Hr. rewrite rejection_events_unreadable, app_nil_r in Hl by done.
      split; [done|]. by rewrite <- end_count_span_events, Hl.
  - intros rejected arg Hp.
    pose proof Hw' as Hset.
    eapply chain_settles in Hset as (n & _ & ?); [|done..].
    by exists n.
Qed.

(** * Further properties of the wrapper and its helpers *)

(** ** What [withSpan] touches *)

Lemma span_events_ended_ok_other s span : s ≠ span → span_events s (ended_ok span) = [].
Proof. intros H. apply span_events_others. repeat constructor; simpl; congruence. Qed.

Lemma span_events_ended_error_other s span m e :
  s ≠ span → span_events s (ended_error span m e) = [].
Proof. intros H. apply span_events_others. repeat constructor; simpl; congruence. Qed.

(** X3: an operation that throws [undefined] or [null]: [withSpan] throws the
    [TypeError] of reading [error.message] in its place, and says nothing more
    to the provider; the span stays as the operation left it, not ended. *)
Theorem withSpan_nullish_throw name fn attrs w e w2 :
  fn (span_opened name attrs w) = (Throw e, w2) →
  e = VUndefined ∨ e = VNull →
  withSpan name fn attrs w = (Throw (passed_on e), w2) ∧
  passed_on e ≠ e ∧
  end_count (next_span w) (log (snd (withSpan name fn attrs w)))
  = end_count (next_span w) (log w2).
Proof.
  intros Hfn He.
  assert (withSpan name fn attrs w = (Throw (passed_on e), w2)) as ->.
  { rewrite withSpan_opens. unfold try_catch, bind at 1. rewrite Hfn.
    by destruct He as [-> | ->]. }
  by destruct He as [-> | ->].
Qed.

Lemma withSpan_nullish_throw_witness :
  withSpan "job" (emit (EStart 7 "inside") ;; throw VNull) None empty_world
  = (Throw (VTypeError "Cannot read properties of null (reading 'message')"),
     mkWorld [EStart 0 "job"; EStart 7 "inside"] 1 [] []).
Proof.
  apply (withSpan_nullish_throw "job" (emit (EStart 7 "inside") ;; throw VNull) None
           empty_world VNull (mkWorld [EStart 0 "job"; EStart 7 "inside"] 1 [] [])).
  - reflexivity.
  - right. reflexivity.
Defined.

(** X5: on every path, whatever the operation returns or throws, [withSpan]
    starts one span, the next free one, and speaks to the provider about no
    other span: before and after the operation, the events of every other
    span are those the operation left. *)
Theorem withSpan_own_span_only name fn attrs w c w2 :
  fn (span_opened name attrs w) = (c, w2) →
  let r := withSpan name fn attrs w in
  next_span (span_opened name attrs w) = S (next_span w) ∧
  next_span (snd r) = next_span w2 ∧
  ∀ s, s ≠ next_span w →
    span_events s (log (span_opened name attrs w)) = span_events s (log w) ∧
    span_events s (log (snd r)) = span_events s (log w2).
Proof.
  intros Hfn r. split; [done|].
  assert (∀ s, s ≠ next_span w →
            span_events s (log (span_opened name attrs w)) = span_events s (log w)) as Hopen.
  { intros s Hs. simpl. rewrite span_events_app.
    rewrite (span_events_others s (EStart _ _ :: _))
      by (destruct attrs; repeat constructor; simpl; congruence).
    by rewrite app_nil_r. }
  subst r. destruct c as [v|e].
  - destruct (instanceof_Promise v) eqn:Hv.
    + destruct v; try discriminate.
      rewrite (withSpan_attaches _ _ _ _ _ _ Hfn). cbn [snd].
      unfold promise_catch. rewrite !promise_then_log.
      split; [|by auto].
      unfold promise_then. cbn [snd].
      by destruct (heap w2 !! p) as [[]|], (_ !! length (heap w2)) as [[]|].
    + rewrite (withSpan_returns _ _ _ _ _ _ Hfn Hv). split; [done|].
      intros s Hs. split; [by auto|]. simpl.
      rewrite span_events_app, span_events_ended_ok_other by done.
      by rewrite app_nil_r.
  - destruct (decide (unreadable e)) as [Hr|Hr].
    + rewrite (withSpan_throws_unreadable _ _ _ _ _ _ Hfn Hr).
      split; [done|]. by auto.
    + rewrite (withSpan_throws _ _ _ _ _ _ _ Hfn (get_message_reads _ _ Hr)).
      split; [done|]. intros s Hs. split; [by auto|]. simpl.
      rewrite span_events_app, span_events_ended_error_other by done.
      by rewrite app_nil_r.
Qed.

Lemma withSpan_own_span_only_witness :
  let fn := emit (EEnd 4) ;; throw (VStr "late") in
  let r := withSpan "outer" fn None (mkWorld [EStart 4 "other"] 5 [] []) in
  next_span (snd r) = 6 ∧
  span_events 4 (log (snd r)) = [EStart 4 "other"; EEnd 4].
Proof.
  intros fn r.
  destruct (withSpan_own_span_only "outer" fn None (mkWorld [EStart 4 "other"] 5 [] [])
              (Throw (VStr "late"))
              (mkWorld [EStart 4 "other"; EStart 5 "outer"; EEnd 4] 6 [] []) eq_refl)
    as (_ & Hn & Hs).
  split; [exact Hn|]. apply (Hs 4). simpl. lia.
Defined.

(** The synchronous failure path, on an operation that throws an object
    with a [message] of its own, [{ message: 'custom' }]. *)
Lemma withSpan_synchronous_once_witness :
  let e := VObject 3 (VStr "custom") in
  let r := withSpan "parse" (throw e) None empty_world in
  fst r = Throw e ∧
  log (snd r) = [EStart 0 "parse"] ++
    [ESetStatus 0 ERROR (Some (VStr "custom")); ERecordException 0 e; EEnd 0] ∧
  next_span (snd r) = 1 ∧ heap (snd r) = [] ∧ queue (snd r) = [] ∧
  end_count 0 (log (snd r)) = 1 ∧
  span_status 0 (log (snd r)) = Some (ERROR, Some (VStr "custom")) ∧
  span_exceptions 0 (log (snd r)) = [e].
Proof.
  apply (withSpan_synchronous_once "parse" (throw (VObject 3 (VStr "custom"))) None
           empty_world (Throw (VObject 3 (VStr "custom")))
           (span_opened "parse" None empty_world)).
  - reflexivity.
  - reflexivity.
  - exact I.
Defined.

(** ** Nested invocations *)

(** X4: an invocation inside the operation of another one, both completing
    synchronously.  The inner span is started after the outer one and ended
    before it; a returned value passes through both with status OK; a thrown
    value with a readable message is recorded on both spans, sets status
    ERROR on both, and reaches the caller as it was thrown. *)
Theorem withSpan_nested outer inner attrs1 attrs2 op w c w2 :
  op (span_opened inner attrs2 (span_opened outer attrs1 w)) = (c, w2) →
  match c with
  | Normal v => instanceof_Promise v = false
  | Throw e => readable e
  end →
  let s := next_span w in
  withSpan outer (withSpan inner op attrs2) attrs1 w =
  (c, set_log (λ l, l ++ match c with
                         | Normal _ => ended_ok (S s) ++ ended_ok s
                         | Throw e =>
                             ended_error (S s) (message_of e) e ++
                             ended_error s (message_of e) e
                         end) w2).
Proof.
  intros Hop Hc s. subst s. destruct c as [v|e].
  - rewrite (withSpan_returns outer _ attrs1 w v
               (set_log (λ l, l ++ ended_ok (S (next_span w))) w2)); [|by apply withSpan_returns|done].
    unfold set_log. simpl. by rewrite <- !app_assoc.
  - rewrite (withSpan_throws outer _ attrs1 w e (message_of e)
               (set_log (λ l, l ++ ended_error (S (next_span w)) (message_of e) e) w2)).
    + unfold set_log. simpl. by rewrite <- !app_assoc.
    + apply withSpan_throws; [done|]. by apply get_message_readable.
    + by apply get_message_readable.
Qed.

Lemma withSpan_nested_witness :
  withSpan "handler" (withSpan "query" (throw (VError 1 "timeout")) None) None empty_world
  = (Throw (VError 1 "timeout"),
     mkWorld [EStart 0 "handler"; EStart 1 "query";
              ESetStatus 1 ERROR (Some (VStr "timeout"));
              ERecordException 1 (VError 1 "timeout"); EEnd 1;
              ESetStatus 0 ERROR (Some (VStr "timeout"));
              ERecordException 0 (VError 1 "timeout"); EEnd 0] 2 [] []).
Proof.
  apply (withSpan_nested "handler" "query" None None (throw (VError 1 "timeout"))
           empty_world (Throw (VError 1 "timeout"))
           (mkWorld [EStart 0 "handler"; EStart 1 "query"] 2 [] [])).
  - reflexivity.
  - exact I.
Defined.

(** ** The promise that [withSpan] returns *)

(** X6: when the operation returns a native promise, [withSpan] returns
    another one, made by the call and pending when it returns, even if the
    operation's promise has already settled; every promise that existed keeps
    its state, the operation's own gaining at most a reaction. *)
Theorem withSpan_returns_new_promise name fn attrs w p w2 :
  fn (span_opened name attrs w) = (Normal (VPromise p), w2) →
  p < length (heap w2) →
  let r := withSpan name fn attrs w in
  let q := S (length (heap w2)) in
  fst r = Normal (VPromise q) ∧ q ≠ p ∧
  heap w2 !! q = None ∧
  heap (snd r) !! q = Some (Pending []) ∧
  (∀ x, x ≠ p → x < length (heap w2) → heap (snd r) !! x = heap w2 !! x) ∧
  (∀ rejected arg, heap w2 !! p = Some (settled rejected arg) →
     heap (snd r) !! p = Some (settled rejected arg)) ∧
  (∀ rs, heap w2 !! p = Some (Pending rs) →
     heap (snd r) !! p
     = Some (Pending (rs ++ [then_reaction (next_span w) (length (heap w2))]))).
Proof.
  intros Hfn Hlt r q. subst r q.
  split; [by rewrite (withSpan_attaches _ _ _ _ _ _ Hfn)|].
  split; [lia|]. split; [apply lookup_ge_None; lia|].
  destruct (heap w2 !! p) as [st|] eqn:Hp; [|apply lookup_ge_None in Hp; lia].
  assert (∀ rs, st = Pending rs →
            (withSpan name fn attrs w).2
            = mkWorld (log w2) (next_span w2)
                (attached (next_span w) p rs (heap w2)) (queue w2)) as Hpend.
  { intros rs ->. by rewrite (withSpan_attaches_pending _ _ _ _ _ _ _ Hfn Hp). }
  assert (∀ rejected arg, st = settled rejected arg →
            heap (withSpan name fn attrs w).2
            = heap w2 ++ [Pending [catch_reaction (next_span w) (S (length (heap w2)))];
                          Pending []]) as Hset.
  { intros rejected arg ->.
    by rewrite (withSpan_attaches_settled _ _ _ _ _ _ _ _ Hfn Hp). }
  destruct st as [rs|v|e].
  - rewrite (Hpend rs eq_refl). cbn [heap].
    split; [apply attached_lookup_catch|].
    split; [intros x ? ?; by apply attached_lookup_other|].
    split; [by intros []|].
    intros rs' [= <-]. by apply attached_lookup_source.
  - rewrite (Hset false v eq_refl).
    split; [rewrite lookup_app_r by lia;
            by replace (S (length (heap w2)) - length (heap w2)) with 1 by lia|].
    split; [intros x ? ?; by apply lookup_app_l|].
    split; [|done]. intros rejected arg Heq. rewrite <- Heq. by apply lookup_app_l_Some.
  - rewrite (Hset true e eq_refl).
    split; [rewrite lookup_app_r by lia;
            by replace (S (length (heap w2)) - length (heap w2)) with 1 by lia|].
    split; [intros x ? ?; by apply lookup_app_l|].
    split; [|done]. intros rejected arg Heq. rewrite <- Heq. by apply lookup_app_l_Some.
Qed.

Lemma withSpan_returns_new_promise_witness :
  let r := withSpan "send" (rejected_operation (VStr "closed")) None empty_world in
  fst r = Normal (VPromise 2) ∧
  heap (snd r) !! 2 = Some (Pending []) ∧
  heap (snd r) !! 0 = Some (Rejected (VStr "closed")).
Proof.
  intros r.
  destruct (withSpan_returns_new_promise "send" (rejected_operation (VStr "closed")) None
              empty_world 0
              (mkWorld [EStart 0 "send"] 1 [Rejected (VStr "closed")] []))
    as (Hr & _ & _ & Hq & _ & Hp & _).
  - reflexivity.
  - simpl. lia.
  - split; [exact Hr|]. split; [exact Hq|]. exact (Hp true (VStr "closed") eq_refl).
Defined.

(** ** The helpers on operations that only return *)

Lemma withSpan_returns_only name op attrs v w :
  returns_only op v → instanceof_Promise v = false →
  withSpan name op attrs w =
  (Normal v,
   mkWorld (log w ++ traced_ok (next_span w) name attrs)
           (S (next_span w)) (heap w) (queue w)).
Proof.
  intros Hop Hv. rewrite (withSpan_returns _ _ _ _ _ _ (Hop _) Hv).
  unfold set_log, traced_ok. simpl. by rewrite <- !app_assoc.
Qed.

(** X7: [component.load] and [component.fetch] on an operation that only
    returns a value: the value is returned, the one span is named after the
    component with ".load" or ".fetch" appended, the caller's attributes are
    set as they are, and when none are given [setAttributes] is not called. *)
Theorem component_load_fetch_trace name op attrs v w :
  returns_only op v → instanceof_Promise v = false →
  let s := next_span w in
  let said suffix := log w ++ EStart s (name +:+ suffix) ::
                       match attrs with
                       | Some a => [ESetAttributes s a]
                       | None => []
                       end ++ [ESetStatus s OK None; EEnd s] in
  component_load name op attrs w
  = (Normal v, mkWorld (said ".load") (S s) (heap w) (queue w)) ∧
  component_fetch name op attrs w
  = (Normal v, mkWorld (said ".fetch") (S s) (heap w) (queue w)).
Proof.
  intros Hop Hv s said. unfold component_load, component_fetch.
  by rewrite !(withSpan_returns_only _ op attrs v w Hop Hv).
Qed.

Lemma component_load_fetch_trace_witness :
  component_load "static.config" (ret (VObject 1 VUndefined)) None empty_world
  = (Normal (VObject 1 VUndefined),
     mkWorld [EStart 0 "static.config.load"; ESetStatus 0 OK None; EEnd 0] 1 [] []) ∧
  component_fetch "static.config" (ret (VObject 1 VUndefined)) None empty_world
  = (Normal (VObject 1 VUndefined),
     mkWorld [EStart 0 "static.config.fetch"; ESetStatus 0 OK None; EEnd 0] 1 [] []).
Proof.
  apply (component_load_fetch_trace "static.config" (ret (VObject 1 VUndefined)) None (VObject 1 VUndefined)
           empty_world).
  - intros w. reflexivity.
  - reflexivity.
Defined.

(** X8: [component.process] on an operation that only returns a value: the
    span is named "data.processing" and [setAttributes] is always called, with
    the empty object when neither a truthy type nor a record count is given. *)
Theorem component_process_trace op v w type recordCount :
  returns_only op v → instanceof_Promise v = false →
  let s := next_span w in
  component_process op type recordCount w
  = (Normal v,
     mkWorld (log w ++ [EStart s "data.processing";
                        ESetAttributes s (component_process_attributes type recordCount);
                        ESetStatus s OK None; EEnd s])
             (S s) (heap w) (queue w)) ∧
  (truthy (of_optional_string type) = false → recordCount = None →
   component_process_attributes type recordCount = ∅).
Proof.
  intros Hop Hv s. split.
  - unfold component_process. by rewrite (withSpan_returns_only _ op _ v w Hop Hv).
  - intros Ht ->. unfold component_process_attributes, spread. rewrite Ht.
    by rewrite !(left_id_L ∅ (∪)).
Qed.

Lemma component_process_trace_witness :
  component_process (ret (VNum 1)) (Some "") None empty_world
  = (Normal (VNum 1),
     mkWorld [EStart 0 "data.processing"; ESetAttributes 0 ∅;
              ESetStatus 0 OK None; EEnd 0] 1 [] []).
Proof.
  destruct (component_process_trace (ret (VNum 1)) (VNum 1) empty_world (Some "") None)
    as [Hrun Hempty].
  - intros w. reflexivity.
  - reflexivity.
  - rewrite <- (Hempty eq_refl eq_refl). exact Hrun.
Defined.

(** X9: the wrapper that [autoTrace] returns makes its span when it is
    called, not when it is made: two calls, one after the other, of a
    function that only returns give two spans with the same name, each
    started and ended within its call, and each call returns what the function
    returns for its arguments. *)
Theorem autoTrace_span_per_call fn options args1 args2 v1 v2 w :
  returns_only (fn_call fn args1) v1 → instanceof_Promise v1 = false →
  returns_only (fn_call fn args2) v2 → instanceof_Promise v2 = false →
  let s := next_span w in
  let name := autoTrace_spanName (fn_name fn) options in
  let attrs := options ≫= opt_attributes in
  autoTrace fn options args1 w
  = (Normal v1, mkWorld (log w ++ traced_ok s name attrs) (S s) (heap w) (queue w)) ∧
  (x <- autoTrace fn options args1 ;; autoTrace fn options args2) w
  = (Normal v2,
     mkWorld (log w ++ traced_ok s name attrs ++ traced_ok (S s) name attrs)
             (S (S s)) (heap w) (queue w)).
Proof.
  intros H1 Hv1 H2 Hv2 s name attrs. unfold bind, autoTrace.
  rewrite (withSpan_returns_only _ _ _ v1 w H1 Hv1).
  split; [done|].
  rewrite (withSpan_returns_only _ _ _ v2 _ H2 Hv2). simpl.
  by rewrite <- app_assoc.
Qed.

Lemma autoTrace_span_per_call_witness :
  let fn := Callable "double" (λ args,
              match args with [VNum n] => ret (VNum (2 * n)) | _ => ret VUndefined end) in
  (x <- autoTrace fn None [VNum 2] ;; autoTrace fn None [VNum 5]) empty_world
  = (Normal (VNum 10),
     mkWorld [EStart 0 "double"; ESetStatus 0 OK None; EEnd 0;
              EStart 1 "double"; ESetStatus 1 OK None; EEnd 1] 2 [] []).
Proof.
  intros fn.
  apply (autoTrace_span_per_call fn None [VNum 2] [VNum 5] (VNum 4) (VNum 10) empty_world).
  - intros w. reflexivity.
  - reflexivity.
  - intros w. reflexivity.
  - reflexivity.
Defined.

Lemma db_query_lookup statement k :
  db_query_attributes statement !! k =
  if decide (k = "db.system") then Some (VStr "postgresql")
  else if decide (k = "db.statement")
       then (if truthy (of_optional_string statement) then VStr <$> statement else None)
       else None.
Proof.
  unfold db_query_attributes.
  destruct statement as [t|]; cbn [of_optional_string];
    try destruct (truthy (VStr t)); cbn [truthy];
    repeat case_decide; subst; by simplify_map_eq.
Qed.

Lemma truthy_optional_string o :
  truthy (of_optional_string o) = true ↔ ∃ t, o = Some t ∧ t ≠ "".
Proof.
  destruct o as [t|]; cbn [of_optional_string].
  - rewrite truthy_string, bool_decide_eq_true. split; [by eexists|].
    by intros (? & [= <-] & ?).
  - simpl. split; [done|]. by intros (? & ? & _).
Qed.

(** X12: the helpers on an operation that only returns a value: each calls
    [setAttributes] once, right after the span is started under the helper's
    fixed name, and the object it passes has these keys and no other: for
    [db.query] "db.system", and "db.statement" exactly when a non-empty
    statement is given; for [component.process] "processing.type" exactly
    when a non-empty type is given, and "processing.record_count" exactly
    when a record count is given; for [api.call], when the url parses,
    "http.method", "http.url" and "net.peer.name". *)
Theorem helper_attribute_keys (URL_hostname : string → option string)
    op v w statement type recordCount url method host :
  returns_only op v → instanceof_Promise v = false →
  URL_hostname url = Some host →
  let s := next_span w in
  let traced name a :=
    (Normal v,
     mkWorld (log w ++ [EStart s name; ESetAttributes s a; ESetStatus s OK None; EEnd s])
             (S s) (heap w) (queue w)) in
  (∃ a, db_query op statement w = traced "db.query" a ∧
        ∀ k, is_Some (a !! k) ↔
             k = "db.system" ∨
             (k = "db.statement" ∧ ∃ t, statement = Some t ∧ t ≠ "")) ∧
  (∃ a, component_process op type recordCount w = traced "data.processing" a ∧
        ∀ k, is_Some (a !! k) ↔
             (k = "processing.type" ∧ ∃ t, type = Some t ∧ t ≠ "") ∨
             (k = "processing.record_count" ∧ is_Some recordCount)) ∧
  (∃ a, api_call URL_hostname op url method w = traced "external.api.call" a ∧
        ∀ k, is_Some (a !! k) ↔
             k = "http.method" ∨ k = "http.url" ∨ k = "net.peer.name").
Proof.
  intros Hop Hv Hurl s traced. subst traced s. split; [|split].
  - exists (db_query_attributes statement). split.
    + unfold db_query. by rewrite (withSpan_returns_only _ op _ v w Hop Hv).
    + intros k. rewrite db_query_lookup, <- truthy_optional_string.
      repeat case_decide; subst.
      * split; [by left|by eexists].
      * destruct (truthy _) eqn:Ht.
        -- apply truthy_optional_string in Ht as (t & -> & _).
           split; [by right|by eexists].
        -- split; [by intros [? ?]|]. by intros [?|[_ ?]].
      * split; [by intros [? ?]|]. by intros [?|[? _]].
  - exists (component_process_attributes type recordCount). split.
    + unfold component_process. by rewrite (withSpan_returns_only _ op _ v w Hop Hv).
    + intros k. rewrite component_process_lookup, <- truthy_optional_string.
      repeat case_decide; subst.
      * rewrite fmap_is_Some. split; [by right|]. by intros [[? _]|[_ ?]].
      * destruct (truthy _) eqn:Ht.
        -- apply truthy_optional_string in Ht as (t & -> & _).
           split; [by left|by eexists].
        -- split; [by intros [? ?]|]. by intros [[_ ?]|[? _]].
      * split; [by intros [? ?]|]. by intros [[? _]|[? _]].
  - exists (api_call_attributes (default "GET" method) url host). split.
    + transitivity (withSpan "external.api.call" op
                      (Some (api_call_attributes (default "GET" method) url host)) w).
      * unfold api_call, new_URL_hostname, bind. by rewrite Hurl.
      * by rewrite (withSpan_returns_only _ op _ v w Hop Hv).
    + intros k. unfold api_call_attributes. split.
      * intros [x Hx].
        apply lookup_insert_Some in Hx as [[ <- _]|[_ Hx]]; [by left|].
        apply lookup_insert_Some in Hx as [[ <- _]|[_ Hx]]; [by right; left|].
        apply lookup_singleton_Some in Hx as [ <- _]. by right; right.
      * intros [-> | [-> | ->]]; by simplify_map_eq.
Qed.

Lemma helper_attribute_keys_witness :
  ∃ a, db_query (ret (VNum 200)) (Some "SELECT 1") empty_world
       = (Normal (VNum 200),
          mkWorld [EStart 0 "db.query"; ESetAttributes 0 a; ESetStatus 0 OK None; EEnd 0]
                  1 [] []) ∧
       is_Some (a !! "db.statement") ∧ ¬ is_Some (a !! "db.user").
Proof.
  destruct (helper_attribute_keys https_hostname (ret (VNum 200)) (VNum 200) empty_world
              (Some "SELECT 1") None (Some 3%Z) "https://api.example.com/status" None
              "api.example.com")
    as ((a & Hrun & Hkeys) & _ & _).
  - intros w. reflexivity.
  - reflexivity.
  - reflexivity.
  - exists a. split; [exact Hrun|]. split.
    + apply Hkeys. right. split; [reflexivity|].
      exists "SELECT 1". split; [reflexivity|discriminate].
    + intros [H|[H _]]%Hkeys; discriminate.
Defined.

(** ** [sleep] *)

(** A promise [o] that follows the pending promise [i]: the adoption job
    attaches the resolving functions of [o] to [i]; once the timer has
    fulfilled [i], the next job fulfils [o] and queues its reactions. *)
Lemma follower_settles w i o rs :
  queue w = [JAdopt i o] → i ≠ o →
  heap w !! i = Some (Pending []) → heap w !! o = Some (Pending rs) →
  let w1 := run_next_job w in
  let w' := run_next_job (timer_fires i w1) in
  (heap w1 !! o = Some (Pending rs) ∧ queue w1 = [] ∧ log w1 = log w ∧
   ∀ x, x < length (heap w) → x ≠ i → heap w1 !! x = heap w !! x) ∧
  heap w' !! o = Some (Fulfilled VUndefined) ∧
  queue w' = map (reaction_job false VUndefined) rs ∧
  log w' = log w ∧ next_span w' = next_span w ∧
  length (heap w') = S (length (heap w)) ∧
  (∀ x, x < length (heap w) → x ≠ i → x ≠ o → heap w' !! x = heap w !! x).
Proof.
  destruct w as [l n h q]. cbn [queue heap log next_span]. intros -> Hio Hi Ho.
  pose proof (lookup_lt_Some _ _ _ Hi) as Hilt.
  pose proof (lookup_lt_Some _ _ _ Ho) as Holt.
  set (r := Reaction (HResolve o) (HReject o) (length h)).
  set (h1 := <[i := Pending [r]]> (h ++ [Pending []])).
  assert (run_next_job (mkWorld l n h [JAdopt i o]) = mkWorld l n h1 []) as ->.
  { rewrite run_next_job_mk. unfold run_job, promise_then. cbn [snd heap].
    rewrite Hi. done. }
  assert (h1 !! i = Some (Pending [r])) as Hi1
    by (apply list_lookup_insert_eq; rewrite length_app; simpl; lia).
  assert (h1 !! o = Some (Pending rs)) as Ho1
    by (unfold h1; rewrite list_lookup_insert_ne by done; by apply lookup_app_l_Some).
  assert (h1 !! length h = Some (Pending [])) as Ht1.
  { unfold h1. rewrite list_lookup_insert_ne by lia.
    rewrite lookup_app_r by done. by rewrite Nat.sub_diag. }
  assert (length h1 = S (length h)) as Hlen
    by (unfold h1; rewrite length_insert, length_app; simpl; lia).
  cbn zeta. split.
  { repeat split; try done. intros x Hx Hxi. cbn [heap]. unfold h1.
    rewrite list_lookup_insert_ne by done. by apply lookup_app_l. }
  assert (run_next_job (timer_fires i (mkWorld l n h1 []))
          = mkWorld l n
              (<[length h := Fulfilled VUndefined]>
                 (<[o := Fulfilled VUndefined]> (<[i := Fulfilled VUndefined]> h1)))
              (map (reaction_job false VUndefined) rs)) as ->.
  { unfold timer_fires. rewrite resolve_promise_plain by done. unfold fulfill_promise.
    rewrite (settle_promise_mk false i VUndefined l n h1 [] [r] Hi1).
    cbn [app map]. unfold reaction_job at 1. cbn [on_fulfilled derived r].
    rewrite run_next_job_mk. unfold run_job, run_handler.
    rewrite (resolve_promise_plain o VUndefined) by done. unfold fulfill_promise.
    rewrite (settle_promise_mk false o VUndefined l n _ [] rs)
      by (by rewrite list_lookup_insert_ne).
    rewrite resolve_promise_plain by done. unfold fulfill_promise.
    rewrite (settle_promise_mk false (length h) VUndefined l n _ _ [])
      by (by rewrite !list_lookup_insert_ne by lia).
    cbn [app map]. by rewrite app_nil_r. }
  cbn [heap queue log next_span].
  split; [|split; [done|split; [done|split; [done|split]]]].
  - rewrite list_lookup_insert_ne by lia. apply list_lookup_insert_eq.
    rewrite length_insert. lia.
  - by rewrite !length_insert.
  - intros x Hx Hxi Hxo. rewrite !list_lookup_insert_ne by lia.
    unfold h1. rewrite list_lookup_insert_ne by done. by apply lookup_app_l.
Qed.

(** X10: [sleep] returns a new pending promise and does not throw; with no
    other job queued, the promise stays pending, however many jobs run, until
    the timer fires, and one job after the timer has fired it is fulfilled
    with [undefined]. *)
Theorem sleep_settles ms w :
  queue w = [] →
  let o := length (heap w) in
  let r := sleep ms w in
  fst r = Normal (VPromise o) ∧
  heap w !! o = None ∧
  log (snd r) = log w ∧
  (∀ n, heap (run_jobs (S n) (snd r)) !! o = Some (Pending [])) ∧
  ∀ n, let w' := run_jobs 1 (timer_fires (S o) (run_jobs (S n) (snd r))) in
       heap w' !! o = Some (Fulfilled VUndefined) ∧ queue w' = [] ∧ log w' = log w.
Proof.
  intros Hq o r.
  assert (snd r = mkWorld (log w) (next_span w)
                    ((heap w ++ [Pending []]) ++ [Pending []])
                    [JAdopt (S o) o]) as Hr.
  { subst r. unfold sleep, bind, new_promise, ret, set_heap, resolve_promise.
    cbn [fst snd heap queue log next_span set_queue].
    rewrite length_app. cbn [length].
    replace (length (heap w) + 1) with (S o) by (subst o; lia).
    rewrite decide_False by lia. unfold set_queue. cbn. by rewrite Hq. }
  assert (fst r = Normal (VPromise o)) as Hfst.
  { subst r. reflexivity. }
  destruct (follower_settles (snd r) (S o) o []) as ((Ho1 & Hq1 & Hl1 & _) & Hrest).
  { by rewrite Hr. }
  { lia. }
  { rewrite Hr. cbn [heap]. rewrite lookup_app_r by (rewrite length_app; simpl; subst o; lia).
    rewrite length_app. cbn [length].
    by replace (S o - (length (heap w) + 1)) with 0 by (subst o; lia). }
  { rewrite Hr. cbn [heap]. rewrite lookup_app_l by (rewrite length_app; simpl; subst o; lia).
    rewrite lookup_app_r by done. by rewrite Nat.sub_diag. }
  assert (∀ n, run_jobs (S n) (snd r) = run_next_job (snd r)) as Hidle
    by (intros n; simpl; by apply run_jobs_idle).
  split; [done|]. split; [apply lookup_ge_None; subst o; lia|].
  split; [by rewrite Hr|]. split.
  - intros n. by rewrite Hidle.
  - intros n. cbn zeta. rewrite Hidle. cbn [run_jobs].
    destruct Hrest as (Ho' & Hq' & Hl' & _).
    rewrite Ho', Hq', Hl'. by rewrite Hr.
Qed.

Lemma sleep_settles_witness :
  let r := sleep 100 empty_world in
  fst r = Normal (VPromise 0) ∧
  heap (run_jobs 3 (snd r)) !! 0 = Some (Pending []) ∧
  heap (run_jobs 1 (timer_fires 1 (run_jobs 1 (snd r)))) !! 0
  = Some (Fulfilled VUndefined).
Proof.
  intros r.
  destruct (sleep_settles 100 empty_world eq_refl) as (Hr & _ & _ & Hpend & Hdone).
  split; [exact Hr|]. split; [exact (Hpend 2)|]. exact (proj1 (Hdone 0)).
Defined.

(** The two jobs of a fulfilment, when they are alone in the queue. *)
Lemma callbacks_fulfil span v q1 q2 w :
  queue w = [JReact (HSpanOk span) false v q1] →
  heap w !! q1 = Some (Pending [Reaction HDefault (HSpanErr span) q2]) →
  heap w !! q2 = Some (Pending []) →
  q1 ≠ q2 → plain v →
  let w' := run_jobs 2 w in
  log w' = log w ++ ended_ok span ∧
  heap w' !! q2 = Some (Fulfilled v) ∧
  queue w' = [] ∧ next_span w' = next_span w.
Proof.
  destruct w as [l n h q]. cbn [queue heap log next_span]. intros -> Hq1 Hq2 Hne Hv.
  pose proof (lookup_lt_Some _ _ _ Hq1) as Hlt1.
  pose proof (lookup_lt_Some _ _ _ Hq2) as Hlt2.
  assert (run_jobs 2 (mkWorld l n h [JReact (HSpanOk span) false v q1])
          = mkWorld (l ++ ended_ok span) n
              (<[q2 := Fulfilled v]> (<[q1 := Fulfilled v]> h)) []) as ->.
  { change (run_jobs 2 ?w) with (run_next_job (run_next_job w)).
    rewrite run_next_job_mk, run_job_onFulfilled, resolve_promise_plain by done.
    unfold fulfill_promise, set_log. cbn [log next_span heap queue].
    rewrite (settle_promise_mk false q1 v _ n h [] _ Hq1).
    cbn [app map]. unfold reaction_job. cbn [on_fulfilled derived].
    rewrite run_next_job_mk, run_job_default, resolve_promise_plain by done.
    unfold fulfill_promise.
    by rewrite (settle_promise_mk false q2 v _ n _ [] [])
      by (by rewrite list_lookup_insert_ne). }
  cbn [heap queue log next_span]. repeat split.
  apply list_lookup_insert_eq. by rewrite length_insert.
Qed.

(** X11: a span around [sleep]: [withSpan(name, () => sleep(ms))] returns a
    pending promise, and with no other job queued nothing is said to the
    provider beyond the start and the attributes, however many jobs run, until
    the timer fires; three jobs after it has fired the span has been ended
    once with status OK and the returned promise is fulfilled with
    [undefined]. *)
Theorem withSpan_sleep name ms attrs w :
  queue w = [] →
  let s := next_span w in
  let o := length (heap w) in
  let r := withSpan name (sleep ms) attrs w in
  fst r = Normal (VPromise (o + 3)) ∧
  (∀ n, log (run_jobs (S n) (snd r)) = log (span_opened name attrs w) ∧
        heap (run_jobs (S n) (snd r)) !! (o + 3) = Some (Pending [])) ∧
  ∀ n, let w' := run_jobs 3 (timer_fires (S o) (run_jobs (S n) (snd r))) in
       log w' = log w ++ traced_ok s name attrs ∧
       heap w' !! (o + 3) = Some (Fulfilled VUndefined) ∧
       queue w' = [].
Proof.
  intros Hq s o r.
  set (w1 := span_opened name attrs w).
  assert (fst (sleep ms w1) = Normal (VPromise o)) as Hfst by reflexivity.
  assert (snd (sleep ms w1)
          = mkWorld (log w1) (S s) ((heap w ++ [Pending []]) ++ [Pending []])
                    [JAdopt (S o) o]) as Hw2.
  { unfold sleep, bind, new_promise, ret, set_heap, resolve_promise.
    cbn [fst snd heap queue log next_span set_queue w1 span_opened].
    rewrite length_app. cbn [length].
    replace (length (heap w) + 1) with (S o) by (subst o; lia).
    rewrite decide_False by lia. unfold set_queue. cbn. by rewrite Hq. }
  set (h2 := (heap w ++ [Pending []]) ++ [Pending []]) in *.
  assert (length h2 = o + 2) as Hlen
    by (unfold h2; rewrite !length_app; simpl; subst o; lia).
  assert (h2 !! o = Some (Pending [])) as Ho.
  { unfold h2. rewrite lookup_app_l by (rewrite length_app; simpl; subst o; lia).
    rewrite lookup_app_r by done. by rewrite Nat.sub_diag. }
  assert (sleep ms w1 = (Normal (VPromise o), snd (sleep ms w1))) as Hfn
    by (rewrite (surjective_pairing (sleep ms w1)) at 1; by rewrite Hfst).
  assert (r = (Normal (VPromise (o + 3)),
               mkWorld (log w1) (S s) (attached s o [] h2) [JAdopt (S o) o])) as Hr.
  { subst r. rewrite (withSpan_attaches_pending name (sleep ms) attrs w o _ [] Hfn);
      rewrite Hw2; cbn [heap log next_span queue]; [|done].
    rewrite Hlen. repeat f_equal. lia. }
  rewrite Hr. cbn [fst snd]. split; [done|].
  set (w3 := mkWorld (log w1) (S s) (attached s o [] h2) [JAdopt (S o) o]).
  destruct (follower_settles w3 (S o) o [then_reaction s (o + 2)])
    as ((Ho1 & Hq1 & Hl1 & Hsame1) & Ho' & Hq' & Hl' & Hn' & Hlen' & Hsame);
    [done|lia| | |].
  { cbn [heap w3]. rewrite attached_lookup_other by lia.
    unfold h2. rewrite lookup_app_r by (rewrite length_app; simpl; subst o; lia).
    rewrite length_app. cbn [length].
    by replace (S o - (length (heap w) + 1)) with 0 by (subst o; lia). }
  { cbn [heap w3]. rewrite attached_lookup_source by lia. by rewrite Hlen. }
  assert (∀ n, run_jobs (S n) w3 = run_next_job w3) as Hidle
    by (intros n; simpl; by apply run_jobs_idle).
  split.
  - intros n. rewrite Hidle, Hl1. split; [done|].
    rewrite Hsame1 by (cbn [heap w3]; rewrite ?attached_length; lia).
    cbn [heap w3]. replace (o + 3) with (S (length h2)) by lia.
    apply attached_lookup_catch.
  - intros n. cbn zeta. rewrite Hidle.
    change (run_jobs 3 ?x) with (run_jobs 2 (run_next_job x)).
    set (w5 := run_next_job (timer_fires (S o) (run_next_job w3))) in *.
    destruct (callbacks_fulfil s VUndefined (o + 2) (o + 3) w5)
      as (Hl5 & Hh5 & Hq5 & _); [done| | |lia|done|].
    + rewrite Hsame by (cbn [heap w3]; rewrite ?attached_length; lia).
      cbn [heap w3]. replace (o + 3) with (S (o + 2)) by lia.
      rewrite <- Hlen. apply attached_lookup_then. lia.
    + rewrite Hsame by (cbn [heap w3]; rewrite ?attached_length; lia).
      cbn [heap w3].
      replace (o + 3) with (S (length h2)) by lia. apply attached_lookup_catch.
    + rewrite Hl5, Hh5, Hq5, Hl'. split; [|done].
      cbn [log w3 w1 span_opened]. unfold traced_ok. by rewrite <- app_assoc.
Qed.

Lemma withSpan_sleep_witness :
  let r := withSpan "wait" (sleep 100) None empty_world in
  let w' := run_jobs 3 (timer_fires 1 (run_jobs 1 (snd r))) in
  fst r = Normal (VPromise 3) ∧
  log (run_jobs 4 (snd r)) = [EStart 0 "wait"] ∧
  log w' = [EStart 0 "wait"; ESetStatus 0 OK None; EEnd 0] ∧
  heap w' !! 3 = Some (Fulfilled VUndefined).
Proof.
  intros r w'.
  destruct (withSpan_sleep "wait" 100 None empty_world eq_refl) as (Hr & Hpend & Hdone).
  split; [exact Hr|]. split; [exact (proj1 (Hpend 3))|].
  destruct (Hdone 0) as (Hl & Hh & _). split; [exact Hl|exact Hh].
Defined.

(** A second invocation made while a first one is in flight, the first
    operation's promise being fulfilled and the second's rejected with
    [{ message: 'custom' }], their jobs interleaved. *)
Lemma withSpan_among_other_activity_witness :
  let w1 := snd (withSpan "a" pending_operation None empty_world) in
  let e := VObject 9 (VStr "custom") in
  let acts := [AResolve 0 (VStr "done"); ARunJob; AReject 3 e;
               ARunJob; ARunJob; ARunJob] in
  let w' := perform_all acts (snd (withSpan "b" pending_operation None w1)) in
  (end_count 1 (log w') ≤ 1)%nat ∧
  heap w' !! 5 = Some (Rejected e) ∧
  span_events 1 (log w')
  = [EStart 1 "b"; ESetStatus 1 ERROR (Some (VStr "custom"));
     ERecordException 1 e; EEnd 1] ∧
  end_count 1 (log w') = 1.
Proof.
  intros w1 e acts w'.
  destruct (withSpan_among_other_activity "b" pending_operation None w1 3
              (snd (pending_operation (span_opened "b" None w1))) acts)
    as (Hle & _ & _ & Hrej & _).
  - reflexivity.
  - simpl. lia.
  - simpl. lia.
  - constructor.
  - intros [|[|[|[|x]]]] rs Hx; simpl in Hx; simplify_eq;
      repeat constructor; simpl; lia.
  - intros v Hv. simpl in Hv. discriminate.
  - reflexivity.
  - repeat constructor; simpl; lia.
  - destruct (Hrej e eq_refl) as (e0 & Hp & _ & Hread & _).
    vm_compute in Hp. injection Hp as <-.
    destruct (Hread I) as (_ & Hev & Hend & _).
    split; [exact Hle|]. split; [reflexivity|]. split; [exact Hev|exact Hend].
Defined.

(** A promise that is rejected with an [Error] after [withSpan] has
    returned. *)
Lemma withSpan_pending_once_witness :
  let r := withSpan "load" pending_operation None empty_world in
  let w' := run_jobs 2 (reject_promise 0 (VError 4 "offline") (snd r)) in
  fst r = Normal (VPromise 2) ∧
  end_count 0 (log (snd r)) = 0 ∧
  log w' = [EStart 0 "load"; ESetStatus 0 ERROR (Some (VStr "offline"));
            ERecordException 0 (VError 4 "offline"); EEnd 0] ∧
  end_count 0 (log w') = 1 ∧
  heap w' !! 2 = Some (Rejected (VError 4 "offline")).
Proof.
  intros r w'.
  destruct (withSpan_pending_once "load" pending_operation None empty_world 0
              (mkWorld [EStart 0 "load"] 1 [Pending []] []) true (VError 4 "offline"))
    as (Hr & _ & H0 & Hl & H1 & Hq & _).
  - reflexivity.
  - reflexivity.
  - reflexivity.
  - reflexivity.
  - split; discriminate.
  - split; [exact Hr|]. split; [exact H0|]. split; [exact Hl|]. split; [exact H1|exact Hq].
Defined.
